(** * Shape-metrics pipeline: a shallow embedding of the C++ variants

    The repository holds several variants of one program: frames are
    loaded, a foreground mask is computed, contours are extracted, the
    largest contour is measured against its convex hull, and per-frame
    processing times are aggregated.  Each module below embeds one source
    file (or the part of it that matters) and keeps the source's names.

    C++ [double] is idealised as a real number.  OpenCV's [contourArea],
    [arcLength] and [convexHull] are collaborators of the program, so the
    metrics code is written over an interface that supplies them; a
    reference instance (shoelace area, Euclidean perimeter, monotone
    chain hull) is given for concrete evaluation. *)

From Stdlib Require Import ZArith List String Bool Reals Lra Lia Permutation.
Import ListNotations.

Local Open Scope R_scope.

(** ** Numbers *)

Definition double := R.

(** The literal [1e-6] of the degenerate-input guards. *)
Definition eps : double := 1 / 1000000.

Definition double_le (x y : double) : bool := if Rle_dec x y then true else false.
Definition double_lt (x y : double) : bool := if Rlt_dec x y then true else false.

(** The sum of a list of doubles, as the statements below write it. *)
Definition sum (l : list double) : double := fold_right Rplus 0 l.

(** ** Divisions that can be observed

    A computation returns its value together with the divisors of every
    division it performed, in program order.  This is what lets a
    statement say that a division was, or was not, reached. *)

Module Div.

Definition M (A : Type) : Type := (A * list double)%type.

Definition ret {A} (a : A) : M A := (a, []).

Definition bind {A B} (m : M A) (k : A -> M B) : M B :=
  let '(a, d1) := m in
  let '(b, d2) := k a in
  (b, d1 ++ d2).

Definition div (x y : double) : M double := (x / y, [y]).

Definition value {A} (m : M A) : A := fst m.
Definition divisors {A} (m : M A) : list double := snd m.

End Div.

Notation "x <- m ;; k" := (Div.bind m (fun x => k))
  (at level 61, m at next level, right associativity).

(** ** std::max_element

    [first] is returned for an empty range (the end iterator, here [None]);
    otherwise the result starts at the first element and moves to a later
    element only when [comp result element] holds, so among equal maxima
    the earliest one wins. *)

Module Std.

Fixpoint max_element_from {A} (comp : A -> A -> bool) (largest : A) (l : list A) : A :=
  match l with
  | [] => largest
  | x :: l' => max_element_from comp (if comp largest x then x else largest) l'
  end.

Definition max_element {A} (comp : A -> A -> bool) (l : list A) : option A :=
  match l with
  | [] => None
  | x :: l' => Some (max_element_from comp x l')
  end.

(** std::accumulate(first, last, 0.0) *)
Definition accumulate (l : list double) : double := fold_left Rplus l 0.

End Std.

(** ** Points, contours and the imaging primitives *)

Definition Point : Type := (Z * Z)%type.
Definition Contour : Type := list Point.

Class Imaging : Type := {
  contourArea : Contour -> double;
  arcLength : Contour -> double;      (* arcLength(c, true): closed curve *)
  convexHull : Contour -> Contour
}.

(** The comparator every variant hands to [max_element]:
    [contourArea(c1) < contourArea(c2)]. *)
Definition area_less `{Imaging} (c1 c2 : Contour) : bool :=
  double_lt (contourArea c1) (contourArea c2).

(** ** Images *)

(** A grey-level image as rows of pixels; [cv::Mat()] and the result of a
    failed [imread] hold no data. *)
Definition Mat : Type := list (list Z).

Definition Mat_empty (m : Mat) : bool :=
  match m with
  | [] => true
  | _ :: _ => false
  end.

(** ** Reference instance of the primitives *)

Module Reference.

Definition cross2 (p q : Point) : Z := (fst p * snd q - fst q * snd p)%Z.

Fixpoint green (prev : Point) (c : Contour) : Z :=
  match c with
  | [] => 0%Z
  | p :: c' => (cross2 prev p + green p c')%Z
  end.

(** Twice the signed area: the sum of the cross products of consecutive
    points around the closed contour, starting from its last point. *)
Definition shoelace2 (c : Contour) : Z := green (last c (0, 0)%Z) c.

(** Modelled from the spec: OpenCV's contourArea is not part of the
    sources; the spec gives the polygon area by the signed-area (shoelace)
    formula in absolute value. *)
Definition area_ref (c : Contour) : double := Rabs (IZR (shoelace2 c)) / 2.

Definition dist (p q : Point) : double :=
  sqrt (IZR ((fst q - fst p) * (fst q - fst p) + (snd q - snd p) * (snd q - snd p))).

Fixpoint path_length (prev : Point) (c : Contour) : double :=
  match c with
  | [] => 0
  | p :: c' => dist prev p + path_length p c'
  end.

(** Modelled from the spec: OpenCV's arcLength is not part of the sources;
    the spec gives the sum of consecutive point-to-point Euclidean
    distances around the closed loop. *)
Definition perimeter_ref (c : Contour) : double := path_length (last c (0, 0)%Z) c.

Definition point_leb (p q : Point) : bool :=
  (fst p <? fst q)%Z || ((fst p =? fst q)%Z && (snd p <=? snd q)%Z).

Definition point_eqb (p q : Point) : bool :=
  (fst p =? fst q)%Z && (snd p =? snd q)%Z.

Fixpoint insert_point (p : Point) (l : list Point) : list Point :=
  match l with
  | [] => [p]
  | q :: l' =>
      if point_eqb p q then l
      else if point_leb p q then p :: l else q :: insert_point p l'
  end.

(** Sorted by x then y, duplicates dropped. *)
Definition sort_points (c : Contour) : list Point := fold_right insert_point [] c.

(** Orientation of the turn o -> a -> b (positive: counter-clockwise). *)
Definition turn (o a b : Point) : Z :=
  ((fst a - fst o) * (snd b - snd o) - (snd a - snd o) * (fst b - fst o))%Z.

(** [stack] holds the chain built so far, newest point first. *)
Fixpoint pop_while (p : Point) (stack : list Point) : list Point :=
  match stack with
  | a :: ((o :: _) as rest) => if (turn o a p <=? 0)%Z then pop_while p rest else stack
  | _ => stack
  end.

Definition chain (pts : list Point) : list Point :=
  fold_left (fun stack p => p :: pop_while p stack) pts [].

(** Modelled from the spec: OpenCV's convexHull is not part of the sources;
    the spec asks for the convex hull of the contour's point set by a
    monotone-chain scan with a consistent winding order. *)
Definition hull_ref (c : Contour) : Contour :=
  let pts := sort_points c in
  match pts with
  | [] | [_] => pts
  | _ =>
      let lower := chain pts in
      let upper := chain (rev pts) in
      rev (tl lower) ++ rev (tl upper)
  end.

#[global] Instance reference : Imaging := {
  contourArea := area_ref;
  arcLength := perimeter_ref;
  convexHull := hull_ref
}.

End Reference.

(** ** c++.cpp *)

Module Cpp.

(** Every member carries the default member initializer [= 0]. *)
Record ContourMetrics : Type := {
  area_original : double;
  area_hull : double;
  area_ratio : double;
  circularity_original : double;
  circularity_hull : double;
  circularity_ratio : double
}.

(** [ContourMetrics()] *)
Definition ContourMetrics_default : ContourMetrics :=
  {| area_original := 0; area_hull := 0; area_ratio := 0;
     circularity_original := 0; circularity_hull := 0; circularity_ratio := 0 |}.

Section WithImaging.
Context `{Imaging}.

Definition calculate_contour_metrics (contours : list Contour) : Div.M ContourMetrics :=
  match contours with
  | [] => Div.ret ContourMetrics_default
  | c0 :: rest =>
      let cnt := Std.max_element_from area_less c0 rest in
      let area_original := contourArea cnt in
      let perimeter_original := arcLength cnt in
      if double_le area_original eps || double_le perimeter_original eps then
        Div.ret ContourMetrics_default
      else
        circularity_original <-
          Div.div (4 * PI * area_original) (perimeter_original * perimeter_original) ;;
        let hull := convexHull cnt in
        let area_hull := contourArea hull in
        let perimeter_hull := arcLength hull in
        if double_le area_hull eps || double_le perimeter_hull eps then
          Div.ret ContourMetrics_default
        else
          circularity_hull <-
            Div.div (4 * PI * area_hull) (perimeter_hull * perimeter_hull) ;;
          area_ratio <- Div.div area_hull area_original ;;
          circularity_ratio <- Div.div circularity_hull circularity_original ;;
          Div.ret {| area_original := area_original;
                     area_hull := area_hull;
                     area_ratio := area_ratio;
                     circularity_original := circularity_original;
                     circularity_hull := circularity_hull;
                     circularity_ratio := circularity_ratio |}
  end.

(** What one call of [process_single_image] meets: the contours that
    [findContours] returns for the image behind [path], the time the two
    clock readings are apart, and the indeterminate value the caller's
    uninitialised [double process_time] holds when the call starts. *)
Record Frame : Type := {
  path : string;
  found : list Contour;
  elapsed : double;
  indeterminate : double
}.

(** The three reference parameters are passed in and returned.
    [findContours] overwrites [contours]; on an empty result the function
    returns at once and leaves [metrics] and [duration] as they were. *)
Definition process_single_image (f : Frame)
    (contours : list Contour) (metrics : ContourMetrics) (duration : double)
    : list Contour * ContourMetrics * double :=
  let contours := found f in
  match contours with
  | [] => (contours, metrics, duration)
  | _ =>
      let duration := elapsed f in
      let metrics := Div.value (calculate_contour_metrics contours) in
      (contours, metrics, duration)
  end.

(** The value the caller's [process_time] holds after the call: the
    measured time when a contour was found, otherwise what the
    uninitialised local held before. *)
Definition recorded (f : Frame) : double :=
  match found f with
  | [] => indeterminate f
  | _ :: _ => elapsed f
  end.

(** atomic<int>: increments wrap around. *)
Definition wrap_int (z : Z) : Z := ((z + 2147483648) mod 4294967296 - 2147483648)%Z.

Record Stats : Type := {
  average_time : double;
  number : Z;
  max_process_time : double
}.

Definition Stats_init : Stats :=
  {| average_time := 0; number := 0; max_process_time := 0 |}.

(** One turn of the worker's loop for a popped path: the locals are
    declared, the image is processed, and the three totals are updated
    under [lock_guard<mutex> lock(mtx)]. *)
Definition worker_turn (st : Stats) (f : Frame) : Stats :=
  let contours : list Contour := [] in
  let metrics := ContourMetrics_default in
  let process_time := indeterminate f in
  let '(_, _, process_time) := process_single_image f contours metrics process_time in
  {| average_time := average_time st + process_time;
     number := wrap_int (number st + 1);
     max_process_time :=
       if double_lt (max_process_time st) process_time then process_time
       else max_process_time st |}.

(** The single worker handles the queued paths in the order it pops
    them; [results.push_back({max, average_time / number})]. *)
Definition run_experiment (frames : list Frame) : double * double :=
  let st := fold_left worker_turn frames Stats_init in
  (max_process_time st, average_time st / IZR (number st)).

End WithImaging.

End Cpp.

(** ** original-thread.cpp *)

Module OriginalThread.

(** A plain struct of six doubles, no initializers. *)
Record ContourMetrics : Type := {
  area_original : double;
  area_hull : double;
  area_ratio : double;
  circularity_original : double;
  circularity_hull : double;
  circularity_ratio : double
}.

(** [ContourMetrics()]: value-initialisation of a plain struct zeroes it. *)
Definition ContourMetrics_zero : ContourMetrics :=
  {| area_original := 0; area_hull := 0; area_ratio := 0;
     circularity_original := 0; circularity_hull := 0; circularity_ratio := 0 |}.

Section WithImaging.
Context `{Imaging}.

(** The [printf] lines of the early returns are console output only and
    are left out. *)
Definition calculate_contour_metrics (contours : list Contour) : Div.M ContourMetrics :=
  match contours with
  | [] => Div.ret ContourMetrics_zero
  | c0 :: rest =>
      let cnt := Std.max_element_from area_less c0 rest in
      let area_original := contourArea cnt in
      let perimeter_original := arcLength cnt in
      if double_le area_original eps || double_le perimeter_original eps then
        Div.ret ContourMetrics_zero
      else
        circularity_original <-
          Div.div (2 * sqrt (PI * area_original)) perimeter_original ;;
        let hull := convexHull cnt in
        let area_hull := contourArea hull in
        let perimeter_hull := arcLength hull in
        if double_le area_hull eps || double_le perimeter_hull eps then
          Div.ret ContourMetrics_zero
        else
          circularity_hull <- Div.div (2 * sqrt (PI * area_hull)) perimeter_hull ;;
          area_ratio <- Div.div area_hull area_original ;;
          circularity_ratio <- Div.div circularity_hull circularity_original ;;
          Div.ret {| area_original := area_original;
                     area_hull := area_hull;
                     area_ratio := area_ratio;
                     circularity_original := circularity_original;
                     circularity_hull := circularity_hull;
                     circularity_ratio := circularity_ratio |}
  end.

(** What one call of [process_image_origin] meets: the file name of the
    path, the contours [findContours] returns, the microseconds between
    the two clock readings, and the indeterminate contents of the caller's
    uninitialised locals [ContourMetrics metrics] and [double processtime]. *)
Record Frame : Type := {
  filename : string;
  found : list Contour;
  elapsed : double;
  indeterminate_metrics : ContourMetrics;
  indeterminate : double
}.

(** [numbersum] is read-only; [contours], [metrics], [duration] and
    [number] are reference parameters, passed in and returned.  With no
    contour the function returns before it writes any of the last three. *)
Definition process_image_origin (f : Frame) (numbersum : double)
    (contours : list Contour) (metrics : ContourMetrics)
    (duration : double) (number : double)
    : list Contour * ContourMetrics * double * double :=
  let contours := found f in
  match contours with
  | [] => (contours, metrics, duration, number)
  | _ =>
      let metrics := Div.value (calculate_contour_metrics contours) in
      let duration := elapsed f in
      let number := numbersum + 1 in
      (contours, metrics, duration, number)
  end.

(** The variables [thread_main] shares with its worker. *)
Record Totals : Type := {
  totaltime_c : double;
  max_processing_time : double;
  max_processing_time_image : string;
  numbersum : double;
  number : double
}.

Definition Totals_init : Totals :=
  {| totaltime_c := 0; max_processing_time := 0;
     max_processing_time_image := EmptyString; numbersum := 0; number := 0 |}.

(** One turn of the worker's loop for a popped path.  The block under
    [lock_guard] adds the time, replaces the maximum together with the
    file name when the time is strictly larger, and copies [number] to
    [numbersum]. *)
Definition worker_turn (st : Totals) (f : Frame) : Totals :=
  let contours : list Contour := [] in
  let metrics := indeterminate_metrics f in
  let processtime := indeterminate f in
  let '(_, _, processtime, number') :=
    process_image_origin f (numbersum st) contours metrics processtime (number st) in
  let larger := double_lt (max_processing_time st) processtime in
  {| totaltime_c := totaltime_c st + processtime;
     max_processing_time := if larger then processtime else max_processing_time st;
     max_processing_time_image :=
       if larger then filename f else max_processing_time_image st;
     numbersum := number';
     number := number' |}.

(** The outputs of [thread_main]: average, maximum, image of the maximum.
    [frames] is the order in which the worker pops the queued paths. *)
Definition thread_main (frames : list Frame) : double * double * string :=
  let st := fold_left worker_turn frames Totals_init in
  (totaltime_c st / number st, max_processing_time st, max_processing_time_image st).

(** A frame whose processing time is recorded: a contour was found, so
    [duration] is assigned, and the clock moved. *)
Definition timed_frame (f : Frame) : Prop := found f <> [] /\ 0 < elapsed f.

(** What is to hold of the totals after the worker handled [frames]. *)
Definition totals_of (frames : list Frame) (st : Totals) : Prop :=
  totaltime_c st = sum (map elapsed frames)
  /\ number st = INR (List.length frames)
  /\ numbersum st = number st
  /\ 0 <= max_processing_time st
  /\ (forall g, In g frames -> elapsed g <= max_processing_time st)
  /\ (frames <> [] ->
      exists f, In f frames
                /\ elapsed f = max_processing_time st
                /\ filename f = max_processing_time_image st).

End WithImaging.

End OriginalThread.

(** ** Tbb.cpp *)

Module Tbb.

Record ContourMetrics : Type := {
  area_original : double;
  area_hull : double;
  area_ratio : double;
  circularity_original : double;
  circularity_hull : double;
  circularity_ratio : double;
  contour : Contour;
  hull : Contour;
  process_time : Z
}.

Section WithImaging.
Context `{Imaging}.

(** [ContourMetrics results;] default-initialises: the two vectors are
    empty, the scalar members keep whatever the storage held.  That content
    is the argument [indeterminate] (its two vector fields are not read). *)
Definition calculate_contour_metrics (indeterminate : ContourMetrics)
    (contours : list Contour) : Div.M ContourMetrics :=
  let results :=
    {| area_original := area_original indeterminate;
       area_hull := area_hull indeterminate;
       area_ratio := area_ratio indeterminate;
       circularity_original := circularity_original indeterminate;
       circularity_hull := circularity_hull indeterminate;
       circularity_ratio := circularity_ratio indeterminate;
       contour := []; hull := [];
       process_time := process_time indeterminate |} in
  match contours with
  | [] => Div.ret results
  | c0 :: rest =>
      let cnt := Std.max_element_from area_less c0 rest in
      let area_original := contourArea cnt in
      let perimeter_original := arcLength cnt in
      circularity_original <-
        Div.div (2 * sqrt (PI * area_original)) perimeter_original ;;
      let hull := convexHull cnt in
      let area_hull := contourArea hull in
      let perimeter_hull := arcLength hull in
      circularity_hull <- Div.div (2 * sqrt (PI * area_hull)) perimeter_hull ;;
      area_ratio <- Div.div area_hull area_original ;;
      circularity_ratio <- Div.div circularity_hull circularity_original ;;
      Div.ret {| area_original := area_original;
                 area_hull := area_hull;
                 area_ratio := area_ratio;
                 circularity_original := circularity_original;
                 circularity_hull := circularity_hull;
                 circularity_ratio := circularity_ratio;
                 contour := cnt; hull := hull;
                 process_time := process_time indeterminate |}
  end.

(** The surroundings of the loop in [main]: [imread], the contours
    [findContours] returns inside [process_image], the microseconds
    measured for a path, and the indeterminate storage of [results]. *)
Variable imread : string -> Mat.
Variable findContours : Mat -> Mat -> list Contour.
Variable elapsed : string -> Z.
Variable indeterminate : string -> ContourMetrics.

Record Run : Type := {
  processing_times : list Z;
  results : list ContourMetrics;
  cout : list string
}.

Definition Run_init : Run :=
  {| processing_times := []; results := []; cout := [] |}.

(** [image_paths] holds [fs::path] values, and [operator<<] of a path
    writes it through [std::quoted]: between two double quotes, with a
    backslash before every double quote and every backslash. *)
Definition double_quote : Ascii.ascii := Ascii.ascii_of_nat 34.
Definition backslash : Ascii.ascii := Ascii.ascii_of_nat 92.

Fixpoint escaped (s : string) : string :=
  match s with
  | EmptyString => EmptyString
  | String c s' =>
      if Ascii.eqb c double_quote || Ascii.eqb c backslash
      then String backslash (String c (escaped s'))
      else String c (escaped s')
  end.

Definition quoted (s : string) : string :=
  String double_quote (escaped s ++ String double_quote EmptyString).

Definition unable_to_read (image_path : string) : string :=
  ("Error: Unable to read image: " ++ quoted image_path)%string.

(** Blur, subtraction, threshold, erosions and dilations, Canny and
    [findContours] are one step of the surroundings; the contours go to
    [calculate_contour_metrics] as they come, even when there are none. *)
Definition process_image (storage : ContourMetrics) (img background : Mat)
    : ContourMetrics :=
  let contours := findContours background img in
  Div.value (calculate_contour_metrics storage contours).

(** The body of the [for] loop inside [parallel_for]: an image that cannot
    be read is reported and the iteration ends with [continue]. *)
Definition loop_body (background : Mat) (run : Run) (image_path : string) : Run :=
  let img := imread image_path in
  if Mat_empty img then
    {| processing_times := processing_times run;
       results := results run;
       cout := cout run ++ [unable_to_read image_path] |}
  else
    let result := process_image (indeterminate image_path) img background in
    let process_time := elapsed image_path in
    {| processing_times := processing_times run ++ [process_time];
       results := results run ++ [result];
       cout := cout run |}.

(** The iterations of one blocked range, in index order. *)
Definition process_range (background : Mat) (image_paths : list string) : Run :=
  fold_left (loop_body background) image_paths Run_init.

End WithImaging.

End Tbb.

(** ** speed.cpp *)

Module Speed.

Record ContourMetrics : Type := {
  area_original : double;
  area_hull : double;
  area_ratio : double;
  circularity_original : double;
  circularity_hull : double;
  circularity_ratio : double;
  contour : Contour;
  hull : Contour
}.

(** [ContourMetrics()]: value-initialisation zeroes the scalars before the
    implicit constructor builds the two empty vectors. *)
Definition ContourMetrics_value_init : ContourMetrics :=
  {| area_original := 0; area_hull := 0; area_ratio := 0;
     circularity_original := 0; circularity_hull := 0; circularity_ratio := 0;
     contour := []; hull := [] |}.

Section WithImaging.
Context `{Imaging}.

(** [ContourMetrics results;] default-initialises: the vectors are empty,
    the six doubles keep whatever the storage held ([indeterminate]). *)
Definition calculate_contour_metrics (indeterminate : ContourMetrics)
    (contours : list Contour) : Div.M ContourMetrics :=
  let results :=
    {| area_original := area_original indeterminate;
       area_hull := area_hull indeterminate;
       area_ratio := area_ratio indeterminate;
       circularity_original := circularity_original indeterminate;
       circularity_hull := circularity_hull indeterminate;
       circularity_ratio := circularity_ratio indeterminate;
       contour := []; hull := [] |} in
  match contours with
  | [] => Div.ret results
  | c0 :: rest =>
      let cnt := Std.max_element_from area_less c0 rest in
      let area_original := contourArea cnt in
      let perimeter_original := arcLength cnt in
      circularity_original <-
        (if double_lt 0 perimeter_original
         then Div.div (2 * sqrt (PI * area_original)) perimeter_original
         else Div.ret 0) ;;
      let hull := convexHull cnt in
      let area_hull := contourArea hull in
      let perimeter_hull := arcLength hull in
      circularity_hull <-
        (if double_lt 0 perimeter_hull
         then Div.div (2 * sqrt (PI * area_hull)) perimeter_hull
         else Div.ret 0) ;;
      area_ratio <-
        (if double_lt 0 area_original
         then Div.div area_hull area_original
         else Div.ret 0) ;;
      circularity_ratio <-
        (if double_lt 0 circularity_original
         then Div.div circularity_hull circularity_original
         else Div.ret 0) ;;
      Div.ret {| area_original := area_original;
                 area_hull := area_hull;
                 area_ratio := area_ratio;
                 circularity_original := circularity_original;
                 circularity_hull := circularity_hull;
                 circularity_ratio := circularity_ratio;
                 contour := cnt; hull := hull |}
  end.

(** The surroundings of a run: what [imread] returns for a path, the
    contours [findContours] returns after blur, subtraction, threshold and
    closing against the background, the seconds [process_file] measures
    for a path, and the indeterminate storage of [results]. *)
Variable imread : string -> Mat.
Variable findContours : Mat -> Mat -> list Contour.
Variable elapsed : string -> double.
Variable indeterminate : string -> ContourMetrics.

Definition unable_to_read (img_path : string) : string :=
  ("Error: Unable to read image: " ++ img_path)%string.

(** Returns the metrics and the lines written to [cout]. *)
Definition process_image (img_path : string) (background : Mat)
    : ContourMetrics * list string :=
  let img := imread img_path in
  if Mat_empty img then (ContourMetrics_value_init, [unable_to_read img_path])
  else
    let contours := findContours background img in
    match Std.max_element area_less contours with
    | Some max_contour =>
        let single_contour := [max_contour] in
        (Div.value (calculate_contour_metrics (indeterminate img_path) single_contour), [])
    | None => (ContourMetrics_value_init, [])
    end.

Record Run : Type := {
  processing_times : list double;
  results_list : list ContourMetrics;
  cout : list string
}.

Definition Run_init : Run :=
  {| processing_times := []; results_list := []; cout := [] |}.

Definition process_file (background : Mat) (run : Run) (img_path : string) : Run :=
  let '(results, lines) := process_image img_path background in
  let process_time := elapsed img_path in
  {| processing_times := processing_times run ++ [process_time];
     results_list := results_list run ++ [results];
     cout := cout run ++ lines |}.

(** The loop of [main] over [img_paths]. *)
Definition process_all (background : Mat) (img_paths : list string) : Run :=
  fold_left (process_file background) img_paths Run_init.

(** The average [main] prints when [processing_times] is not empty. *)
Definition average_time (run : Run) : option double :=
  match processing_times run with
  | [] => None
  | _ => Some (Std.accumulate (processing_times run)
               / INR (List.length (processing_times run)))
  end.

End WithImaging.

End Speed.

(** ** ypc.cpp (the queue is the same in canny_t.cpp) *)

Module Ypc.

Record ImageData : Type := {
  image : Mat;
  name : string
}.

Record ContourData : Type := {
  contours : list Contour;
  contour_name : string
}.

(** [{cv::Mat(), ""}], the value pushed as "// Sentinel"; a
    default-constructed [ImageData] is the same value. *)
Definition sentinel : ImageData := {| image := []; name := EmptyString |}.

(** [{{}, ""}] *)
Definition contour_sentinel : ContourData :=
  {| contours := []; contour_name := EmptyString |}.

(** How far a thread's loop got in the schedule under study. *)
Inductive stage (A : Type) : Type :=
  | Finished (a : A)
  | Waits           (* blocked in a wait that nothing will end *)
  | MoreFuel.

Arguments Finished {A} a.
Arguments Waits {A}.
Arguments MoreFuel {A}.

(** *** struct ThreadSafeQueue

    The mutex makes [push] and [pop] atomic, so the queue's behaviour under
    any number of threads is a sequence of these two operations on its
    contents (front of the queue first). *)
Module ThreadSafeQueue.

Definition t : Type := list ImageData.

Definition empty (queue : t) : bool :=
  match queue with
  | [] => true
  | _ :: _ => false
  end.

Definition push (queue : t) (data : ImageData) : t := queue ++ [data].

(** [Blocked]: the caller stays in [cond.wait] and the queue is untouched.
    [Returned ok data queue]: the return value, the contents of the
    reference parameter [data], and the queue afterwards. *)
Inductive outcome : Type :=
  | Blocked
  | Returned (ok : bool) (data : ImageData) (queue : t).

Definition pop (queue : t) (data : ImageData) : outcome :=
  if negb (empty queue) then            (* cond.wait(lock, !queue.empty()) *)
    match queue with
    | [] => Returned false data queue   (* if (queue.empty()) return false; *)
    | front :: rest => Returned true front rest
    end
  else Blocked.

(** [n] calls of [pop] one after the other, by whichever threads: the
    outcomes in order.  A blocked call leaves the queue as it is. *)
Fixpoint pops (n : nat) (queue : t) (data : ImageData) : list outcome :=
  match n with
  | O => []
  | S n' =>
      match pop queue data with
      | Blocked => Blocked :: pops n' queue data
      | Returned ok data' queue' => Returned ok data' queue' :: pops n' queue' data'
      end
  end.

(** Any interleaving of producers and consumers is a sequence of calls.
    A consumer that found the queue empty waits; when it is woken and
    takes an item, that is a later [Pop] of the sequence. *)
Inductive call : Type :=
  | Push (data : ImageData)
  | Pop.

Fixpoint calls (cs : list call) (queue : t) (data : ImageData) : list outcome * t :=
  match cs with
  | [] => ([], queue)
  | Push x :: cs' => calls cs' (push queue x) data
  | Pop :: cs' =>
      match pop queue data with
      | Blocked =>
          let '(os, q) := calls cs' queue data in (Blocked :: os, q)
      | Returned ok data' queue' =>
          let '(os, q) := calls cs' queue' data' in (Returned ok data' queue' :: os, q)
      end
  end.

(** The items pushed by a sequence of calls, and the items handed out by
    a sequence of outcomes, both in order. *)
Definition pushed (cs : list call) : list ImageData :=
  flat_map (fun c => match c with Push x => [x] | Pop => [] end) cs.

Definition received (os : list outcome) : list ImageData :=
  flat_map (fun o => match o with Returned _ x _ => [x] | Blocked => [] end) os.

(** What a call handed to its caller: nothing while it is blocked,
    otherwise the returned flag and the data. *)
Definition delivered (o : outcome) : option (bool * ImageData) :=
  match o with
  | Blocked => None
  | Returned ok data _ => Some (ok, data)
  end.

End ThreadSafeQueue.

Import ThreadSafeQueue.

Section WithImaging.
Context `{Imaging}.

(** The surroundings: [cv::imread], [fs::path(p).filename().string()], the
    mask computed by [process_image], the contours found on its Canny
    edges, and the seconds [main] measures for a named record. *)
Variable imread : string -> Mat.
Variable filename : string -> string.
Variable process_image : Mat -> Mat -> Mat.
Variable find_contours : Mat -> list Contour.
Variable elapsed : string -> double.

Definition load_image (image_path : string) : Mat := imread image_path.

Definition worker_load (image_paths : list string) (output_queue : t) : t :=
  let output_queue :=
    fold_left
      (fun q path => push q {| image := load_image path; name := filename path |})
      image_paths output_queue in
  push output_queue sentinel.

(** [while (input_queue.pop(data) && !data.image.empty())], then the
    sentinel.  Returns the input queue as it is left and the output queue. *)
Fixpoint worker_process (fuel : nat) (input_queue output_queue : t)
    (blurred_bg : Mat) (data : ImageData) : stage (t * t) :=
  match fuel with
  | O => MoreFuel
  | S fuel' =>
      match pop input_queue data with
      | Blocked => Waits
      | Returned ok data input_queue =>
          if ok && negb (Mat_empty (image data)) then
            let processed := process_image (image data) blurred_bg in
            worker_process fuel' input_queue
              (push output_queue {| image := processed; name := name data |})
              blurred_bg data
          else Finished (input_queue, push output_queue sentinel)
      end
  end.

Fixpoint worker_contour (fuel : nat) (input_queue : t)
    (output_queue : list ContourData) (data : ImageData)
    : stage (t * list ContourData) :=
  match fuel with
  | O => MoreFuel
  | S fuel' =>
      match pop input_queue data with
      | Blocked => Waits
      | Returned ok data input_queue =>
          if ok && negb (Mat_empty (image data)) then
            let contours := find_contours (image data) in
            worker_contour fuel' input_queue
              (output_queue ++ [{| contours := contours; contour_name := name data |}])
              data
          else Finished (input_queue, output_queue ++ [contour_sentinel])
      end
  end.

Definition calculate_circularity (contour : Contour) : double :=
  let area := contourArea contour in
  let perimeter := arcLength contour in
  4 * PI * area / (perimeter * perimeter).

(** One entry of [results]. *)
Record Result : Type := {
  result_name : string;
  largest_contour : Contour;
  circularity : double;
  hull_circularity : double;
  processing_time : double
}.

Definition string_empty (s : string) : bool :=
  match s with
  | EmptyString => true
  | String _ _ => false
  end.

(** The [while (true)] loop of [main]: each turn takes the front of
    [contour_queue]; an empty name ends the loop; a record without contours
    adds nothing. *)
Fixpoint main_loop (contour_queue : list ContourData)
    (results : list Result) (processing_times : list double)
    : stage (list Result * list double) :=
  match contour_queue with
  | [] => Waits
  | contour_data :: contour_queue =>
      if string_empty (contour_name contour_data) then
        Finished (results, processing_times)
      else
        match contours contour_data with
        | [] => main_loop contour_queue results processing_times
        | c0 :: rest =>
            let largest_contour := Std.max_element_from area_less c0 rest in
            let hull := convexHull largest_contour in
            let circularity := calculate_circularity largest_contour in
            let hull_circularity := calculate_circularity hull in
            let processing_time := elapsed (contour_name contour_data) in
            main_loop contour_queue
              (results ++ [{| result_name := contour_name contour_data;
                              largest_contour := largest_contour;
                              circularity := circularity;
                              hull_circularity := hull_circularity;
                              processing_time := processing_time |}])
              (processing_times ++ [processing_time])
        end
  end.

(** What each thread leaves behind when every stage runs after its
    producer has finished ([main] joins t1, t2 and t3 before it reads). *)
Record Outcome : Type := {
  loaded : t;                 (* queues[1] as worker_load filled it *)
  unprocessed : t;            (* queues[1] as worker_process left it *)
  uncontoured : t;            (* queues[2] as worker_contour left it *)
  results : list Result;
  processing_times : list double
}.

Definition bind_stage {A B} (s : stage A) (k : A -> stage B) : stage B :=
  match s with
  | Finished a => k a
  | Waits => Waits
  | MoreFuel => MoreFuel
  end.

Definition run (image_paths : list string) (blurred_bg : Mat) : stage Outcome :=
  let q1 := worker_load image_paths [] in
  bind_stage (worker_process (S (List.length q1)) q1 [] blurred_bg sentinel)
    (fun '(q1', q2) =>
  bind_stage (worker_contour (S (List.length q2)) q2 [] sentinel)
    (fun '(q2', contour_queue) =>
  bind_stage (main_loop contour_queue [] [])
    (fun '(results, processing_times) =>
  Finished {| loaded := q1; unprocessed := q1'; uncontoured := q2';
              results := results; processing_times := processing_times |}))).

End WithImaging.

End Ypc.

(** ** Concrete inputs used in the examples *)

Module Samples.

(** A square of side 2, and the same square outlined twice. *)
Definition square : Contour := [(0, 0); (2, 0); (2, 2); (0, 2)]%Z.

Definition twice_square : Contour :=
  [(0, 0); (2, 0); (2, 2); (0, 2); (0, 0); (2, 0); (2, 2); (0, 2)]%Z.

(** A contour of a single pixel. *)
Definition pixel : Contour := [(0, 0)]%Z.

(** One frame of one pixel. *)
Definition frame_a : Ypc.ImageData :=
  {| Ypc.image := [[255%Z]]; Ypc.name := "a.tiff" |}.

(** A directory in which "bad.tiff" cannot be decoded and every other
    file is a one-pixel image. *)
Definition disk (image_path : string) : Mat :=
  if String.eqb image_path "bad.tiff" then [] else [[255%Z]].

(** Storage that held 1 .. 6 before [ContourMetrics results;]. *)
Definition leftover : Speed.ContourMetrics :=
  {| Speed.area_original := 1; Speed.area_hull := 2; Speed.area_ratio := 3;
     Speed.circularity_original := 4; Speed.circularity_hull := 5;
     Speed.circularity_ratio := 6; Speed.contour := []; Speed.hull := [] |}.

Definition leftover_tbb : Tbb.ContourMetrics :=
  {| Tbb.area_original := 1; Tbb.area_hull := 2; Tbb.area_ratio := 3;
     Tbb.circularity_original := 4; Tbb.circularity_hull := 5;
     Tbb.circularity_ratio := 6; Tbb.contour := []; Tbb.hull := [];
     Tbb.process_time := 7%Z |}.

(** A frame of c++.cpp in which [findContours] finds nothing; the worker's
    uninitialised [process_time] happens to hold 123. *)
Definition blank_frame : Cpp.Frame :=
  {| Cpp.path := "blank.tiff"; Cpp.found := []; Cpp.elapsed := 5;
     Cpp.indeterminate := 123 |}.

(** Three frames of original-thread.cpp, each with one contour, taking
    10, 30 and 20 microseconds. *)
Definition timed (file : string) (t : double) : OriginalThread.Frame :=
  {| OriginalThread.filename := file;
     OriginalThread.found := [square];
     OriginalThread.elapsed := t;
     OriginalThread.indeterminate_metrics := OriginalThread.ContourMetrics_zero;
     OriginalThread.indeterminate := 0 |}.

Definition frame10 : OriginalThread.Frame := timed "f1.tiff" 10.
Definition frame30 : OriginalThread.Frame := timed "f2.tiff" 30.
Definition frame20 : OriginalThread.Frame := timed "f3.tiff" 20.

End Samples.

(** ** What the pipeline of ypc.cpp is to deliver *)

Module YpcExpected.

Section WithImaging.
Context `{Imaging}.

Variable imread : string -> Mat.
Variable filename : string -> string.
Variable process_image : Mat -> Mat -> Mat.
Variable find_contours : Mat -> list Contour.
Variable elapsed : string -> double.

(** What each worker pushes for one item. *)
Definition loaded_item (image_path : string) : Ypc.ImageData :=
  {| Ypc.image := imread image_path; Ypc.name := filename image_path |}.

Definition processed_item (blurred_bg : Mat) (x : Ypc.ImageData) : Ypc.ImageData :=
  {| Ypc.image := process_image (Ypc.image x) blurred_bg; Ypc.name := Ypc.name x |}.

Definition contoured_item (x : Ypc.ImageData) : Ypc.ContourData :=
  {| Ypc.contours := find_contours (Ypc.image x); Ypc.contour_name := Ypc.name x |}.

(** The entry [main] appends for one record of the contour queue: none
    when the record has no contour. *)
Definition entry (contour_data : Ypc.ContourData) : list Ypc.Result :=
  match Ypc.contours contour_data with
  | [] => []
  | c0 :: rest =>
      let largest_contour := Std.max_element_from area_less c0 rest in
      [{| Ypc.result_name := Ypc.contour_name contour_data;
          Ypc.largest_contour := largest_contour;
          Ypc.circularity := Ypc.calculate_circularity largest_contour;
          Ypc.hull_circularity := Ypc.calculate_circularity (convexHull largest_contour);
          Ypc.processing_time := elapsed (Ypc.contour_name contour_data) |}]
  end.

(** The record the three workers hand to [main] for one path. *)
Definition record_of (blurred_bg : Mat) (image_path : string) : Ypc.ContourData :=
  {| Ypc.contours := find_contours (process_image (imread image_path) blurred_bg);
     Ypc.contour_name := filename image_path |}.

(** A path the stages can carry: the image loads, its mask is an image,
    and the file name is not empty. *)
Definition carried (blurred_bg : Mat) (image_path : string) : Prop :=
  Mat_empty (imread image_path) = false
  /\ Mat_empty (process_image (imread image_path) blurred_bg) = false
  /\ Ypc.string_empty (filename image_path) = false.

End WithImaging.

End YpcExpected.

(** ** What the worker of original-thread.cpp adds for a frame *)

Module ThreadExpected.

(** The value of the worker's [processtime] after the call: the measured
    time when a contour was found, otherwise what the uninitialised local
    held. *)
Definition recorded (f : OriginalThread.Frame) : double :=
  match OriginalThread.found f with
  | [] => OriginalThread.indeterminate f
  | _ :: _ => OriginalThread.elapsed f
  end.

Definition has_contour (f : OriginalThread.Frame) : bool :=
  match OriginalThread.found f with
  | [] => false
  | _ :: _ => true
  end.

End ThreadExpected.

(** ** original-thread.cpp: one turn of the worker, call by call *)

Module ThreadSteps.
Import OriginalThread.

Section WithImaging.
Context `{Imaging}.

(** The call [process_image_origin(..., numbersum, contours, metrics,
    processtime, number)] of the worker, made before the lock is taken:
    it reads [numbersum], writes [number] through its reference parameter
    when a contour is found, and leaves the worker's local [processtime]
    as the second component. *)
Definition unlocked_step (f : Frame) (st : Totals) : Totals * double :=
  let '(_, _, processtime, number') :=
    process_image_origin f (numbersum st) [] (indeterminate_metrics f)
      (indeterminate f) (number st) in
  ({| totaltime_c := totaltime_c st;
      max_processing_time := max_processing_time st;
      max_processing_time_image := max_processing_time_image st;
      numbersum := numbersum st;
      number := number' |},
   processtime).

(** The block under [std::lock_guard<std::mutex> lock(mtx)]. *)
Definition locked_step (f : Frame) (processtime : double) (st : Totals) : Totals :=
  let larger := double_lt (max_processing_time st) processtime in
  {| totaltime_c := totaltime_c st + processtime;
     max_processing_time := if larger then processtime else max_processing_time st;
     max_processing_time_image :=
       if larger then filename f else max_processing_time_image st;
     numbersum := number st;
     number := number st |}.

(** The shared variables, and the turns that have made their call and not
    yet entered the locked block, each with its path and its local
    [processtime]. *)
Record State : Type := {
  shared : Totals;
  pending : list (Frame * double)
}.

Definition State_init : State := {| shared := Totals_init; pending := [] |}.

(** The two steps a schedule is made of: a worker pops [f] and makes the
    call, or the pending turn at position [k] runs its locked block.  The
    mutex makes the locked block one step; nothing makes the call and the
    locked block of one turn one step. *)
Inductive event : Type :=
  | Call (f : Frame)
  | Lock (k : nat).

Definition step (s : State) (e : event) : State :=
  match e with
  | Call f =>
      let '(st, processtime) := unlocked_step f (shared s) in
      {| shared := st; pending := pending s ++ [(f, processtime)] |}
  | Lock k =>
      match nth_error (pending s) k with
      | Some (f, processtime) =>
          {| shared := locked_step f processtime (shared s);
             pending := firstn k (pending s) ++ skipn (S k) (pending s) |}
      | None => s
      end
  end.

Definition run (events : list event) : State := fold_left step events State_init.


End WithImaging.

End ThreadSteps.

(** ** crop_canny.cpp *)

Module CropCanny.

(** cv::Size *)
Record Size : Type := {
  width : Z;
  height : Z
}.

(** [img.size()]: the columns of the first row and the rows. *)
Definition Mat_size (img : Mat) : Size :=
  {| width := Z.of_nat (List.length (hd [] img));
     height := Z.of_nat (List.length img) |}.

(** The members of [cv::Point] and [cv::Size] are [int]; the two
    subtractions are [int] subtractions. *)
Fixpoint is_contour_complete (contour : Contour) (image_size : Size) : bool :=
  match contour with
  | [] => true
  | point :: contour' =>
      if (fst point <=? 0)%Z || (snd point <=? 0)%Z
         || (fst point >=? Cpp.wrap_int (width image_size - 1))%Z
         || (snd point >=? Cpp.wrap_int (height image_size - 1))%Z
      then false
      else is_contour_complete contour' image_size
  end.

(** The struct is the one of speed.cpp, member for member. *)
Definition ContourMetrics : Type := Speed.ContourMetrics.

Section WithImaging.
Context `{Imaging}.

(** No guard before any division; [ContourMetrics results;] leaves the
    six doubles as the storage held them ([indeterminate]). *)
Definition calculate_contour_metrics (indeterminate : ContourMetrics)
    (contours : list Contour) : Div.M ContourMetrics :=
  let results :=
    {| Speed.area_original := Speed.area_original indeterminate;
       Speed.area_hull := Speed.area_hull indeterminate;
       Speed.area_ratio := Speed.area_ratio indeterminate;
       Speed.circularity_original := Speed.circularity_original indeterminate;
       Speed.circularity_hull := Speed.circularity_hull indeterminate;
       Speed.circularity_ratio := Speed.circularity_ratio indeterminate;
       Speed.contour := []; Speed.hull := [] |} in
  match contours with
  | [] => Div.ret results
  | c0 :: rest =>
      let cnt := Std.max_element_from area_less c0 rest in
      let area_original := contourArea cnt in
      let perimeter_original := arcLength cnt in
      circularity_original <-
        Div.div (2 * sqrt (PI * area_original)) perimeter_original ;;
      let hull := convexHull cnt in
      let area_hull := contourArea hull in
      let perimeter_hull := arcLength hull in
      circularity_hull <- Div.div (2 * sqrt (PI * area_hull)) perimeter_hull ;;
      area_ratio <- Div.div area_hull area_original ;;
      circularity_ratio <- Div.div circularity_hull circularity_original ;;
      Div.ret {| Speed.area_original := area_original;
                 Speed.area_hull := area_hull;
                 Speed.area_ratio := area_ratio;
                 Speed.circularity_original := circularity_original;
                 Speed.circularity_hull := circularity_hull;
                 Speed.circularity_ratio := circularity_ratio;
                 Speed.contour := cnt; Speed.hull := hull |}
  end.

(** The surroundings: [imread], and the contours [findContours] returns
    after blur, subtraction, threshold, erosions and dilations, with or
    without the Canny step. *)
Variable imread : string -> Mat.
Variable findContours : bool -> Mat -> Mat -> list Contour.
Variable indeterminate : string -> ContourMetrics.

(** [contours.empty() || contours.size() > 1 ||
    !is_contour_complete(contours[0], img.size())] gives the
    value-initialised record. *)
Definition process_image (storage : ContourMetrics) (img background : Mat)
    (use_canny : bool) : ContourMetrics :=
  let contours := findContours use_canny background img in
  match contours with
  | [] => Speed.ContourMetrics_value_init
  | c0 :: _ =>
      if (1 <? List.length contours)%nat
         || negb (is_contour_complete c0 (Mat_size img))
      then Speed.ContourMetrics_value_init
      else Div.value (calculate_contour_metrics storage contours)
  end.

Definition contour_empty (m : ContourMetrics) : bool :=
  match Speed.contour m with
  | [] => true
  | _ :: _ => false
  end.

(** How [process_and_compare] ends: with the error line, with the
    "Skipping" line, or with the two records it prints and draws. *)
Inductive comparison : Type :=
  | Unreadable
  | Skipped
  | Compared (results_with_canny results_without_canny : ContourMetrics).

Definition process_and_compare (img_path : string) (background : Mat) : comparison :=
  let img := imread img_path in
  if Mat_empty img then Unreadable
  else
    let results_with_canny := process_image (indeterminate img_path) img background true in
    if contour_empty results_with_canny then Skipped
    else
      let results_without_canny :=
        process_image (indeterminate img_path) img background false in
      if contour_empty results_without_canny then Skipped
      else Compared results_with_canny results_without_canny.

End WithImaging.

End CropCanny.

(** ** minrectangle-CUDA.cpp *)

Module MinRect.

(** cv::Rect *)
Record Rect : Type := {
  x : Z;
  y : Z;
  width : Z;
  height : Z
}.

Definition padding : Z := 10.

(** The four assignments that grow the bounding box by the padding and
    clip it to the image, one after the other ([int] arithmetic, so each
    sum and difference wraps). *)
Definition pad_bounding_box (bounding_box : Rect) (cols rows : Z) : Rect :=
  let x1 := Z.max 0 (Cpp.wrap_int (x bounding_box - padding)) in
  let y1 := Z.max 0 (Cpp.wrap_int (y bounding_box - padding)) in
  let width1 :=
    Z.min (Cpp.wrap_int (cols - x1))
          (Cpp.wrap_int (width bounding_box + Cpp.wrap_int (2 * padding))) in
  let height1 :=
    Z.min (Cpp.wrap_int (rows - y1))
          (Cpp.wrap_int (height bounding_box + Cpp.wrap_int (2 * padding))) in
  {| x := x1; y := y1; width := width1; height := height1 |}.

(** What [binary(bounding_box)] demands of a region of an image with
    [cols] columns and [rows] rows. *)
Definition inside (r : Rect) (cols rows : Z) : Prop :=
  (0 <= x r /\ 0 <= width r /\ x r + width r <= cols
   /\ 0 <= y r /\ 0 <= height r /\ y r + height r <= rows)%Z.

(** [r] lies within [r']. *)
Definition covers (r' r : Rect) : Prop :=
  (x r' <= x r /\ x r + width r <= x r' + width r'
   /\ y r' <= y r /\ y r + height r <= y r' + height r')%Z.

Section WithImaging.
Context `{Imaging}.

(** The surroundings of one call of [process_image_cropped]. *)
Record Frame : Type := {
  image : Mat;                      (* imread(image_path) *)
  binary_cols : Z;
  binary_rows : Z;
  contoursbi : list Contour;        (* findContours on the thresholded image *)
  bounding : Contour -> Rect;       (* boundingRect *)
  edge_contours : Rect -> list Contour;
                                    (* findContours on the Canny edges of the crop *)
  elapsed : double;
  indeterminate : double            (* the caller's uninitialised processtime_c *)
}.

(** The three reference parameters are passed in and returned; each early
    return leaves them as they are, except that the second
    [findContours] has already overwritten [contours]. *)
Definition process_image_cropped (f : Frame)
    (contours : list Contour) (metrics : OriginalThread.ContourMetrics)
    (duration : double)
    : list Contour * OriginalThread.ContourMetrics * double :=
  if Mat_empty (image f) then (contours, metrics, duration)
  else
    match contoursbi f with
    | [] => (contours, metrics, duration)
    | c0 :: rest =>
        if (1 <? List.length (contoursbi f))%nat then (contours, metrics, duration)
        else
          let bounding_box :=
            pad_bounding_box (bounding f c0) (binary_cols f) (binary_rows f) in
          let contours := edge_contours f bounding_box in
          match contours with
          | [] => (contours, metrics, duration)
          | _ :: _ =>
              let duration := elapsed f in
              (* the metrics function has the text of original-thread.cpp's,
                 with [results = {}] for [ContourMetrics()] *)
              let metrics :=
                Div.value (OriginalThread.calculate_contour_metrics contours) in
              (contours, metrics, duration)
          end
    end.

Record Totals : Type := {
  averagetime_c : double;
  number : double;
  max_processtime_c : double
}.

Definition Totals_init : Totals :=
  {| averagetime_c := 0; number := 0; max_processtime_c := 0 |}.

(** One turn of the loop of [main] over the directory. *)
Definition main_turn (st : Totals) (f : Frame) : Totals :=
  let contours_cropped : list Contour := [] in
  let metrics_cropped := OriginalThread.ContourMetrics_zero in
  let processtime_c := indeterminate f in
  let '(_, _, processtime_c) :=
    process_image_cropped f contours_cropped metrics_cropped processtime_c in
  {| averagetime_c := averagetime_c st + processtime_c;
     number := number st + 1;
     max_processtime_c :=
       if double_lt (max_processtime_c st) processtime_c then processtime_c
       else max_processtime_c st |}.

(** A turn in which [process_image_cropped] reaches the assignment of
    [duration]. *)
Definition measured (f : Frame) : bool :=
  negb (Mat_empty (image f))
  && match contoursbi f with
     | [c0] =>
         match edge_contours f
                 (pad_bounding_box (bounding f c0) (binary_cols f) (binary_rows f)) with
         | [] => false
         | _ :: _ => true
         end
     | _ => false
     end.

Definition recorded (f : Frame) : double :=
  if measured f then elapsed f else indeterminate f.

End WithImaging.

End MinRect.

(** ** edp.cpp: the two morphology loops *)

Module Edp.

(** [m.at<uchar>(i, j)]; the loops below only read inside the image. *)
Definition at_ (m : Mat) (i j : Z) : Z :=
  nth (Z.to_nat j) (nth (Z.to_nat i) m []) 0%Z.

Definition rows (m : Mat) : Z := Z.of_nat (List.length m).
Definition cols (m : Mat) : Z := Z.of_nat (List.length (hd [] m)).

(** The values [first], [first + 1], ..., [last] of a [for] loop. *)
Definition range (first last : Z) : list Z :=
  map (fun k => (first + Z.of_nat k)%Z) (seq 0 (Z.to_nat (last - first + 1))).

(** The two inner loops over the kernel: the smallest (largest) pixel
    under the non-zero kernel entries, starting from 255 (0). *)
Definition min_under (src kernel : Mat) (kernelRadius i j : Z) : Z :=
  fold_left
    (fun minVal ki =>
       fold_left
         (fun minVal kj =>
            if (at_ kernel (ki + kernelRadius) (kj + kernelRadius) =? 0)%Z then minVal
            else Z.min minVal (at_ src (i + ki) (j + kj)))
         (range (- kernelRadius) kernelRadius) minVal)
    (range (- kernelRadius) kernelRadius) 255%Z.

Definition max_under (src kernel : Mat) (kernelRadius i j : Z) : Z :=
  fold_left
    (fun maxVal ki =>
       fold_left
         (fun maxVal kj =>
            if (at_ kernel (ki + kernelRadius) (kj + kernelRadius) =? 0)%Z then maxVal
            else Z.max maxVal (at_ src (i + ki) (j + kj)))
         (range (- kernelRadius) kernelRadius) maxVal)
    (range (- kernelRadius) kernelRadius) 0%Z.

(** The kernel offsets [(ki, kj)] in the order the two kernel loops visit
    them. *)
Definition offsets (kernelRadius : Z) : list (Z * Z) :=
  flat_map (fun ki => map (pair ki) (range (- kernelRadius) kernelRadius))
           (range (- kernelRadius) kernelRadius).

(** The kernel loops as a single pass [val = op(val, value)] over a list
    of offsets, leaving out the skipped ones. *)
Definition pass (op : Z -> Z -> Z) (skip : Z * Z -> bool) (value : Z * Z -> Z)
    (l : list (Z * Z)) (start : Z) : Z :=
  fold_left (fun val k => if skip k then val else op val (value k)) l start.

(** The pixels the two outer loops visit. *)
Definition interior (m : Mat) (kernelRadius i j : Z) : bool :=
  (kernelRadius <=? i)%Z && (i <? rows m - kernelRadius)%Z
  && (kernelRadius <=? j)%Z && (j <? cols m - kernelRadius)%Z.

(** [dst] starts as [Mat::zeros(src.size())]; the outer loops write each
    interior pixel once and nothing else, so [dst] is given pixel by
    pixel. *)
Definition filtered (value : Z -> Z -> Z) (src : Mat) (kernelRadius : Z) : Mat :=
  map (fun i =>
         map (fun j =>
                if interior src kernelRadius (Z.of_nat i) (Z.of_nat j)
                then value (Z.of_nat i) (Z.of_nat j)
                else 0%Z)
             (seq 0 (Z.to_nat (cols src))))
      (seq 0 (Z.to_nat (rows src))).

Definition parallelErode (src kernel : Mat) : Mat :=
  let kernelSize := rows kernel in
  let kernelRadius := (kernelSize / 2)%Z in
  filtered (min_under src kernel kernelRadius) src kernelRadius.

Definition parallelDilate (src kernel : Mat) : Mat :=
  let kernelSize := rows kernel in
  let kernelRadius := (kernelSize / 2)%Z in
  filtered (max_under src kernel kernelRadius) src kernelRadius.

(** An image whose rows all have the length of the first one. *)
Definition rectangular (m : Mat) : Prop :=
  Forall (fun row => List.length row = List.length (hd [] m)) m.

(** Pixels are [uchar]. *)
Definition pixels_in_range (m : Mat) : Prop :=
  Forall (Forall (fun v => (0 <= v <= 255)%Z)) m.

Definition image (m : Mat) : Prop := rectangular m /\ pixels_in_range m.

(** A kernel of 2r + 1 rows and as many columns: the kernel loops then
    read inside it. *)
Definition structuring (kernel : Mat) : Prop :=
  Z.odd (rows kernel) = true
  /\ Forall (fun row => List.length row = List.length kernel) kernel.

(** The centre of the kernel is set. *)
Definition centred (kernel : Mat) : Prop :=
  at_ kernel (rows kernel / 2) (rows kernel / 2) <> 0%Z.

(** The set entries of the kernel are symmetric about its centre. *)
Definition symmetric (kernel : Mat) : Prop :=
  let r := (rows kernel / 2)%Z in
  forall ki kj : Z,
    (- r <= ki <= r)%Z -> (- r <= kj <= r)%Z ->
    at_ kernel (ki + r) (kj + r) <> 0%Z ->
    at_ kernel (- ki + r) (- kj + r) <> 0%Z.

(** [getStructuringElement(MORPH_CROSS, Size(3, 3))] *)
Definition cross3 : Mat := [[0; 1; 0]; [1; 1; 1]; [0; 1; 0]]%Z.

(** A binary image of 5 x 5 pixels with a plus of set pixels and one set
    pixel in a corner. *)
Definition plus5 : Mat :=
  [[255; 0; 0; 0; 0];
   [0; 0; 255; 0; 0];
   [0; 255; 255; 255; 0];
   [0; 0; 255; 0; 0];
   [0; 0; 0; 0; 0]]%Z.

End Edp.

(** ** cannytest.cpp: contours by flood fill *)

Module CannyTest.
Local Open Scope Z_scope.

(** [std::pair<int, int>], [std::vector<std::vector<int>>] and
    [std::vector<std::vector<bool>>]. *)
Definition Pixel : Type := (Z * Z)%type.
Definition Image : Type := list (list Z).
Definition Visited : Type := list (list bool).

(** [edge_image[i][j]] and [visited[i][j]]; the code reads them only
    after it has checked the indices against the two sizes. *)
Definition at_ (edge_image : Image) (i j : Z) : Z :=
  nth (Z.to_nat j) (nth (Z.to_nat i) edge_image []) 0.

Definition seen (visited : Visited) (i j : Z) : bool :=
  nth (Z.to_nat j) (nth (Z.to_nat i) visited []) false.

(** [l[n] = a], for [n] inside [l]. *)
Fixpoint assign {A : Type} (l : list A) (n : nat) (a : A) : list A :=
  match l, n with
  | [], _ => []
  | _ :: l', O => a :: l'
  | b :: l', S n' => b :: assign l' n' a
  end.

(** [visited[x][y] = true] *)
Definition mark (visited : Visited) (x y : Z) : Visited :=
  assign visited (Z.to_nat x)
         (assign (nth (Z.to_nat x) visited []) (Z.to_nat y) true).

Definition directions : list (Z * Z) := [(-1, 0); (1, 0); (0, -1); (0, 1)].

(** [edge_image.size()] and [edge_image[0].size()] *)
Definition rows (edge_image : Image) : Z := Z.of_nat (List.length edge_image).
Definition cols (edge_image : Image) : Z :=
  Z.of_nat (List.length (nth 0 edge_image [])).

(** One turn of the loop over [directions]; the top of the stack is the
    head of the list. *)
Definition push (edge_image : Image) (visited : Visited) (x y : Z)
    (stack : list Pixel) (d : Z * Z) : list Pixel :=
  let xn := x + fst d in
  let yn := y + snd d in
  if (0 <=? xn) && (xn <? rows edge_image) && (0 <=? yn) && (yn <? cols edge_image)
  then
    if negb (at_ edge_image xn yn =? 0) && negb (seen visited xn yn)
    then (xn, yn) :: stack
    else stack
  else stack.

(** [while (!stack.empty())]: every turn pops one pixel; [fuel] bounds the
    number of turns and [None] stands for a loop that needs more. *)
Fixpoint flood (fuel : nat) (edge_image : Image) (visited : Visited)
    (contour stack : list Pixel) : option (Visited * list Pixel) :=
  match stack with
  | [] => Some (visited, contour)
  | (x, y) :: stack =>
      match fuel with
      | O => None
      | S fuel =>
          if seen visited x y then flood fuel edge_image visited contour stack
          else
            let visited := mark visited x y in
            let contour := contour ++ [(x, y)] in
            let stack := fold_left (push edge_image visited x y) directions stack in
            flood fuel edge_image visited contour stack
      end
  end.

(** The values 0, 1, ..., n - 1 of a counting loop, and the pixels
    [(i, j)] in the order of the two outer loops. *)
Definition indices (n : Z) : list Z := map Z.of_nat (seq 0 (Z.to_nat n)).

Definition positions (edge_image : Image) : list Pixel :=
  flat_map (fun i => map (pair i) (indices (cols edge_image)))
           (indices (rows edge_image)).

(** The body of the two outer loops at pixel [(i, j)]. *)
Definition start (edge_image : Image) (fuel : nat)
    (state : option (Visited * list (list Pixel))) (p : Pixel)
    : option (Visited * list (list Pixel)) :=
  match state with
  | None => None
  | Some (visited, contours) =>
      if negb (at_ edge_image (fst p) (snd p) =? 0)
         && negb (seen visited (fst p) (snd p))
      then
        match flood fuel edge_image visited [] [p] with
        | None => None
        | Some (visited, contour) =>
            Some (visited,
                  match contour with
                  | [] => contours
                  | _ :: _ => contours ++ [contour]
                  end)
        end
      else Some (visited, contours)
  end.

(** The turns one flood fill may take: every pixel is marked at most once
    and pushes at most four pixels, besides the one pushed before the
    loop. *)
Definition turns (edge_image : Image) : nat :=
  S (4 * List.length (positions edge_image)).

(** [edge_image[0]] of an image without rows is outside the vector:
    there [trace_contours] has no defined result. *)
Definition trace_contours (edge_image : Image) : option (list (list Pixel)) :=
  match edge_image with
  | [] => None
  | row0 :: _ =>
      let visited :=
        repeat (repeat false (List.length row0)) (List.length edge_image) in
      option_map snd
        (fold_left (start edge_image (turns edge_image)) (positions edge_image)
                   (Some (visited, [])))
  end.

(** *** The vocabulary of the properties *)

(** Every row has the length of the first one. *)
Definition rectangular (edge_image : Image) : Prop :=
  Forall (fun row => List.length row = List.length (nth 0 edge_image [])) edge_image.

Definition inside (edge_image : Image) (p : Pixel) : Prop :=
  (0 <= fst p < rows edge_image) /\ (0 <= snd p < cols edge_image).

(** A pixel of the image that is not 0. *)
Definition edge (edge_image : Image) (p : Pixel) : Prop :=
  inside edge_image p /\ at_ edge_image (fst p) (snd p) <> 0.








(** An image of 3 x 3 pixels with three groups of non-zero pixels. *)
Definition three_blobs : Image :=
  [[1; 0; 1];
   [1; 0; 0];
   [0; 0; 1]].

End CannyTest.

(** ** speed_test.cpp *)

Module SpeedTest.

(** The struct is the one of speed.cpp, member for member. *)
Definition ContourMetrics : Type := Speed.ContourMetrics.

Section WithImaging.
Context `{Imaging}.

(** Takes the one contour [process_image] selected and assigns every
    member of [results]. *)
Definition calculate_contour_metrics (contour : Contour) : Div.M ContourMetrics :=
  let area_original := contourArea contour in
  let perimeter_original := arcLength contour in
  circularity_original <-
    (if double_lt 0 perimeter_original
     then Div.div (2 * sqrt (PI * area_original)) perimeter_original
     else Div.ret 0) ;;
  let hull := convexHull contour in
  let area_hull := contourArea hull in
  let perimeter_hull := arcLength hull in
  circularity_hull <-
    (if double_lt 0 perimeter_hull
     then Div.div (2 * sqrt (PI * area_hull)) perimeter_hull
     else Div.ret 0) ;;
  area_ratio <-
    (if double_lt 0 area_original
     then Div.div area_hull area_original
     else Div.ret 0) ;;
  circularity_ratio <-
    (if double_lt 0 circularity_original
     then Div.div circularity_hull circularity_original
     else Div.ret 0) ;;
  Div.ret {| Speed.area_original := area_original;
             Speed.area_hull := area_hull;
             Speed.area_ratio := area_ratio;
             Speed.circularity_original := circularity_original;
             Speed.circularity_hull := circularity_hull;
             Speed.circularity_ratio := circularity_ratio;
             Speed.contour := contour; Speed.hull := hull |}.

(** The surroundings: what [imread] returns for a path and the contours
    [findContours] returns after blur, subtraction, threshold and closing
    against the background. *)
Variable imread : string -> Mat.
Variable findContours : Mat -> Mat -> list Contour.

(** The record [process_image] returns (its line on [cout] for an
    unreadable image is left out). *)
Definition process_image (img_path : string) (background : Mat) : ContourMetrics :=
  let img := imread img_path in
  if Mat_empty img then Speed.ContourMetrics_value_init
  else
    let contours := findContours background img in
    match Std.max_element area_less contours with
    | Some max_contour => Div.value (calculate_contour_metrics max_contour)
    | None => Speed.ContourMetrics_value_init
    end.

Definition process_images_sequential (img_paths : list string) (background : Mat)
    : list ContourMetrics :=
  fold_left (fun results img_path => results ++ [process_image img_path background])
            img_paths [].

(** [cv::Range]: [start] and [end]. *)
Definition Range : Type := (Z * Z)%type.

(** The body [parallel_for_] calls on one range:
    [results[i] = process_image(img_paths[i], background)] for
    [range.start <= i < range.end]. *)
Definition body (img_paths : list string) (background : Mat)
    (results : list ContourMetrics) (range : Range) : list ContourMetrics :=
  fold_left
    (fun results i =>
       CannyTest.assign results (Z.to_nat i)
         (process_image (nth (Z.to_nat i) img_paths ""%string) background))
    (Edp.range (fst range) (snd range - 1)) results.

(** [parallel_for_] splits [Range(0, img_paths.size())] into ranges and
    calls the body on each; [schedule] lists these ranges in an order in
    which the calls may take effect.  [results] starts with
    [img_paths.size()] value-initialised records. *)
Definition process_images_parallel (schedule : list Range)
    (img_paths : list string) (background : Mat) : list ContourMetrics :=
  fold_left (body img_paths background) schedule
            (repeat Speed.ContourMetrics_value_init (List.length img_paths)).

End WithImaging.

(** The ranges stay inside [Range(0, n)] and no index is left out. *)
Definition splits (schedule : list Range) (n : Z) : Prop :=
  Forall (fun range : Range => (0 <= fst range)%Z /\ (snd range <= n)%Z) schedule
  /\ forall i : Z, (0 <= i < n)%Z ->
       exists range, In range schedule /\ (fst range <= i < snd range)%Z.

End SpeedTest.

(** ** Further sample data *)

Module MoreSamples.

(** A contour of one pixel away from the border of a 5 x 5 image. *)
Definition inner_pixel : Contour := [(2, 2)]%Z.

(** A bounding box well inside an image of 100 x 100 pixels. *)
Definition box : MinRect.Rect :=
  {| MinRect.x := 5; MinRect.y := 5; MinRect.width := 10; MinRect.height := 10 |}.

(** A frame of original-thread.cpp in which no contour is found; the
    worker's uninitialised [processtime] happens to hold 10. *)
Definition unmeasured : OriginalThread.Frame :=
  {| OriginalThread.filename := "f4.tiff";
     OriginalThread.found := [];
     OriginalThread.elapsed := 5;
     OriginalThread.indeterminate_metrics := OriginalThread.ContourMetrics_zero;
     OriginalThread.indeterminate := 10 |}.

End MoreSamples.

(** * Properties *)

(** ** Comparisons on [double] *)

Lemma double_le_true (x y : double) : double_le x y = true <-> x <= y.
Proof.
  unfold double_le. destruct (Rle_dec x y); split; intros; try easy.
Qed.

Lemma double_le_false (x y : double) : double_le x y = false <-> y < x.
Proof.
  unfold double_le. destruct (Rle_dec x y); split; intros; try easy; lra.
Qed.

Lemma double_lt_true (x y : double) : double_lt x y = true <-> x < y.
Proof.
  unfold double_lt. destruct (Rlt_dec x y); split; intros; try easy.
Qed.

Lemma double_lt_false (x y : double) : double_lt x y = false <-> y <= x.
Proof.
  unfold double_lt. destruct (Rlt_dec x y); split; intros; try easy; lra.
Qed.

Lemma eps_pos : 0 < eps.
Proof. unfold eps. lra. Qed.

(** ** Sums *)

Lemma sum_app (l1 l2 : list double) : sum (l1 ++ l2) = sum l1 + sum l2.
Proof.
  induction l1 as [|x l1 IH]; simpl; [lra|]. rewrite IH. lra.
Qed.

Lemma sum_Permutation (l1 l2 : list double) : Permutation l1 l2 -> sum l1 = sum l2.
Proof.
  induction 1; simpl; lra.
Qed.

Lemma accumulate_sum (l : list double) : Std.accumulate l = sum l.
Proof.
  unfold Std.accumulate.
  assert (G : forall a, fold_left Rplus l a = a + sum l).
  { induction l as [|x l IH]; intros a; simpl; [lra|]. rewrite IH. lra. }
  rewrite G. lra.
Qed.

(** ** Selection of the largest contour *)

Section Selection.
Context `{Imaging}.

Lemma max_element_from_bounds (rest : list Contour) (c0 : Contour) :
  contourArea c0 <= contourArea (Std.max_element_from area_less c0 rest)
  /\ forall c, In c rest ->
       contourArea c <= contourArea (Std.max_element_from area_less c0 rest).
Proof.
  revert c0. induction rest as [|x rest IH]; intros c0; simpl.
  - split; [lra | tauto].
  - destruct (IH (if area_less c0 x then x else c0)) as [Hacc Hrest].
    assert (Hstep : contourArea c0 <= contourArea (if area_less c0 x then x else c0)
                    /\ contourArea x <= contourArea (if area_less c0 x then x else c0)).
    { unfold area_less. destruct (double_lt (contourArea c0) (contourArea x)) eqn:E.
      - apply double_lt_true in E. lra.
      - apply double_lt_false in E. lra. }
    split; [lra|]. intros c [->|Hin]; [lra | auto].
Qed.

Lemma max_element_from_In (rest : list Contour) (c0 : Contour) :
  In (Std.max_element_from area_less c0 rest) (c0 :: rest).
Proof.
  revert c0. induction rest as [|x rest IH]; intros c0; simpl.
  - now left.
  - destruct (IH (if area_less c0 x then x else c0)) as [E|Hin].
    + rewrite <- E. destruct (area_less c0 x); auto.
    + auto.
Qed.


End Selection.

(** ** The stages of ypc.cpp *)

Section YpcStages.
Import Ypc Ypc.ThreadSafeQueue.

Variable process_image : Mat -> Mat -> Mat.

(** [worker_process] forwards every frame in front of the first item with
    an empty image, ends there with the sentinel, and leaves whatever is
    behind that item in its input queue. *)
Lemma worker_process_stops_at_empty_image
    (items : list ImageData) (stop : ImageData) (rest output_queue : t)
    (blurred_bg : Mat) (data : ImageData) (fuel : nat) :
  Forall (fun x => Mat_empty (image x) = false) items ->
  Mat_empty (image stop) = true ->
  (List.length items < fuel)%nat ->
  worker_process process_image fuel (items ++ stop :: rest) output_queue blurred_bg data
  = Finished
      (rest,
       output_queue
       ++ map (fun x => {| image := process_image (image x) blurred_bg;
                           name := name x |}) items
       ++ [sentinel]).
Proof.
  revert output_queue data fuel.
  induction items as [|x items IH]; intros output_queue data fuel Hall Hstop Hfuel.
  - destruct fuel as [|fuel]; [simpl in Hfuel; lia|].
    simpl. rewrite Hstop. reflexivity.
  - destruct fuel as [|fuel]; [simpl in Hfuel; lia|].
    apply Forall_cons_iff in Hall. destruct Hall as [Hx Hall].
    cbn [worker_process app pop empty negb]. rewrite Hx. cbn [andb negb].
    rewrite IH by (simpl in Hfuel; auto; lia).
    unfold push. cbn [map]. now rewrite <- app_assoc.
Qed.

End YpcStages.

(** ** The queue between the stages *)

Module QueueFacts.
Import Ypc Ypc.ThreadSafeQueue.

Lemma pop_empty (data : ImageData) : pop [] data = Blocked.
Proof. reflexivity. Qed.

Lemma pop_front (front : ImageData) (rest : t) (data : ImageData) :
  pop (front :: rest) data = Returned true front rest.
Proof. reflexivity. Qed.

(** The statement [return false] of [pop] is never reached. *)
Lemma pop_never_false (queue : t) (data data' : ImageData) (queue' : t) :
  pop queue data <> Returned false data' queue'.
Proof. destruct queue; simpl; discriminate. Qed.

Lemma pushes_app (items : list ImageData) (queue : t) :
  fold_left push items queue = queue ++ items.
Proof.
  revert queue. induction items as [|x items IH]; intros queue; simpl.
  - now rewrite app_nil_r.
  - rewrite IH. unfold push. now rewrite <- app_assoc.
Qed.

Lemma pops_blocked (n : nat) (data : ImageData) :
  map delivered (pops n [] data) = repeat None n.
Proof. induction n as [|n IH]; simpl; [reflexivity | now rewrite IH]. Qed.

Lemma pops_all (n : nat) (items : list ImageData) (data : ImageData) :
  map delivered (pops (List.length items + n) items data)
  = map (fun x => Some (true, x)) items ++ repeat None n.
Proof.
  revert data. induction items as [|x items IH]; intros data; simpl.
  - apply pops_blocked.
  - now rewrite IH.
Qed.

(** Whatever the interleaving of pushes and pops, the items handed out,
    followed by the items still queued, are the initial contents followed
    by the pushed items: nothing is lost, doubled or reordered. *)
Lemma calls_conserve_items (cs : list call) (queue : t) (data : ImageData) :
  received (fst (calls cs queue data)) ++ snd (calls cs queue data)
  = queue ++ pushed cs.
Proof.
  revert queue data. induction cs as [|c cs IH]; intros queue data.
  - simpl. now rewrite app_nil_r.
  - destruct c as [x|].
    + cbn [calls pushed flat_map]. rewrite IH. unfold push, pushed.
      now rewrite <- app_assoc.
    + cbn [calls pushed flat_map app]. destruct queue as [|front rest].
      * cbn [pop empty negb]. specialize (IH [] data).
        destruct (calls cs [] data) as [os q]. exact IH.
      * cbn [pop empty negb]. specialize (IH rest front).
        destruct (calls cs rest front) as [os q]. cbn [fst snd] in *.
        cbn [received flat_map]. simpl. f_equal. exact IH.
Qed.

(** C1, as the code has it.  There is no [close]: the end of a stream is
    an ordinary item, the sentinel with an empty image and an empty name.
    After N pushed items and the sentinel, N + 1 calls of [pop] return
    [true]; the first N hand over the pushed items in push order, each one
    once, and the last one hands over the sentinel.  Every further call
    blocks, a call on an empty queue blocks, and no call ever returns
    [false].  Under any interleaving of pushes and pops the items handed
    out are the pushed ones, each once and in push order.  The receiving
    loop [while (pop(data) && !data.image.empty())] handles exactly the N
    items when none of them has an empty image, and ends at the sentinel. *)
Theorem sentinel_ends_stream :
  forall (items : list ImageData) (data : ImageData) (more : nat),
    let queue := push (fold_left push items []) sentinel in
    map delivered (pops (List.length items + 1 + more) queue data)
    = map (fun x => Some (true, x)) items ++ [Some (true, sentinel)] ++ repeat None more
    /\ pop [] data = Blocked
    /\ (forall (q q' : t) (d d' : ImageData), pop q d <> Returned false d' q')
    /\ (forall (cs : list call) (q : t),
          received (fst (calls cs q data)) ++ snd (calls cs q data) = q ++ pushed cs)
    /\ (forall (process_image : Mat -> Mat -> Mat) (blurred_bg : Mat) (output_queue : t),
          Forall (fun x => Mat_empty (image x) = false) items ->
          worker_process process_image (S (List.length items)) queue output_queue
            blurred_bg data
          = Finished
              ([], output_queue
                   ++ map (fun x => {| image := process_image (image x) blurred_bg;
                                       name := name x |}) items
                   ++ [sentinel])).
Proof.
  intros items data more queue. split; [|split; [|split; [|split]]].
  - subst queue. rewrite pushes_app. unfold push. simpl.
    replace (List.length items + 1 + more)%nat
      with (List.length (items ++ [sentinel]) + more)%nat
      by (rewrite length_app; simpl; lia).
    rewrite pops_all, map_app. simpl. now rewrite <- app_assoc.
  - reflexivity.
  - intros. apply pop_never_false.
  - intros. apply calls_conserve_items.
  - intros process_image blurred_bg output_queue Hall.
    subst queue. rewrite pushes_app. unfold push. cbn [app].
    apply worker_process_stops_at_empty_image; auto.
Qed.

(** C1 as stated fails for N = 1: after the push of [Samples.frame_a] and of the
    sentinel, the second call returns [true] with the sentinel, the third
    blocks, and so no call reports [ok = false]. *)
Lemma no_pop_reports_closed :
  map delivered (pops 3 (push (push [] Samples.frame_a) sentinel) sentinel)
  = [Some (true, Samples.frame_a); Some (true, sentinel); None]
  /\ ~ (exists data,
          map delivered (pops 2 (push (push [] Samples.frame_a) sentinel) sentinel)
          = [Some (true, Samples.frame_a); Some (false, data)]).
Proof.
  split; [reflexivity|]. intros [data E]. simpl in E. discriminate.
Qed.

End QueueFacts.

(** ** The metrics of c++.cpp *)

Section CppMetrics.
Context `{Imaging}.
Import Cpp.

Lemma guard_false (a p : double) :
  double_le a eps || double_le p eps = false <-> eps < a /\ eps < p.
Proof.
  rewrite orb_false_iff, !double_le_false. tauto.
Qed.

Lemma guard_true (a p : double) :
  double_le a eps || double_le p eps = true <-> a <= eps \/ p <= eps.
Proof.
  rewrite orb_true_iff, !double_le_true. tauto.
Qed.

(** The three ways through [calculate_contour_metrics] on a non-empty
    collection. *)
Lemma cpp_original_degenerate (c0 : Contour) (rest : list Contour) :
  let cnt := Std.max_element_from area_less c0 rest in
  contourArea cnt <= eps \/ arcLength cnt <= eps ->
  calculate_contour_metrics (c0 :: rest) = (ContourMetrics_default, []).
Proof.
  intros cnt Hg. apply guard_true in Hg. unfold calculate_contour_metrics.
  fold cnt. now rewrite Hg.
Qed.

Lemma cpp_hull_degenerate (c0 : Contour) (rest : list Contour) :
  let cnt := Std.max_element_from area_less c0 rest in
  let hull := convexHull cnt in
  eps < contourArea cnt -> eps < arcLength cnt ->
  contourArea hull <= eps \/ arcLength hull <= eps ->
  calculate_contour_metrics (c0 :: rest)
  = (ContourMetrics_default, [arcLength cnt * arcLength cnt]).
Proof.
  intros cnt hull Ha Hp Hg. apply guard_true in Hg.
  assert (Hg0 : double_le (contourArea cnt) eps || double_le (arcLength cnt) eps = false)
    by (apply guard_false; tauto).
  unfold calculate_contour_metrics. fold cnt. rewrite Hg0.
  unfold Div.bind, Div.div, Div.ret. fold hull. now rewrite Hg.
Qed.

Lemma cpp_regular (c0 : Contour) (rest : list Contour) :
  let cnt := Std.max_element_from area_less c0 rest in
  let hull := convexHull cnt in
  let co := 4 * PI * contourArea cnt / (arcLength cnt * arcLength cnt) in
  let ch := 4 * PI * contourArea hull / (arcLength hull * arcLength hull) in
  eps < contourArea cnt -> eps < arcLength cnt ->
  eps < contourArea hull -> eps < arcLength hull ->
  calculate_contour_metrics (c0 :: rest)
  = ({| area_original := contourArea cnt;
        area_hull := contourArea hull;
        area_ratio := contourArea hull / contourArea cnt;
        circularity_original := co;
        circularity_hull := ch;
        circularity_ratio := ch / co |},
     [arcLength cnt * arcLength cnt; arcLength hull * arcLength hull;
      contourArea cnt; co]).
Proof.
  intros cnt hull co ch Ha Hp Hah Hph.
  assert (Hg0 : double_le (contourArea cnt) eps || double_le (arcLength cnt) eps = false)
    by (apply guard_false; tauto).
  assert (Hg1 : double_le (contourArea hull) eps || double_le (arcLength hull) eps = false)
    by (apply guard_false; tauto).
  unfold calculate_contour_metrics. fold cnt. rewrite Hg0.
  unfold Div.bind, Div.div, Div.ret. fold hull. now rewrite Hg1.
Qed.

(** The guards of c++.cpp do what the degenerate-input rule asks: a
    measure at or below 1e-6, of the contour or of its hull, gives the
    all-zero record; the only division that may have run by then is the one
    by the squared perimeter of a contour that passed its own guard; and
    every division that runs has a positive divisor. *)
Lemma cpp_guard_protects_divisions (contours : list Contour) :
  match contours with
  | [] => calculate_contour_metrics contours = (ContourMetrics_default, [])
  | c0 :: rest =>
      let cnt := Std.max_element_from area_less c0 rest in
      let hull := convexHull cnt in
      (contourArea cnt <= eps \/ arcLength cnt <= eps ->
       calculate_contour_metrics contours = (ContourMetrics_default, []))
      /\ (contourArea hull <= eps \/ arcLength hull <= eps ->
          Div.value (calculate_contour_metrics contours) = ContourMetrics_default
          /\ forall d, In d (Div.divisors (calculate_contour_metrics contours)) ->
               d = arcLength cnt * arcLength cnt /\ eps < arcLength cnt)
  end
  /\ Forall (fun d => 0 < d) (Div.divisors (calculate_contour_metrics contours)).
Proof.
  pose proof eps_pos as He. pose proof PI_RGT_0 as Hpi.
  destruct contours as [|c0 rest]; [split; [reflexivity | constructor]|].
  set (cnt := Std.max_element_from area_less c0 rest).
  set (hull := convexHull cnt).
  destruct (Rle_dec (contourArea cnt) eps) as [Ha|Ha].
  { pose proof (cpp_original_degenerate c0 rest (or_introl Ha)) as E. fold cnt in E.
    rewrite E. simpl. repeat split; auto; try tauto. }
  destruct (Rle_dec (arcLength cnt) eps) as [Hp|Hp].
  { pose proof (cpp_original_degenerate c0 rest (or_intror Hp)) as E. fold cnt in E.
    rewrite E. simpl. repeat split; auto; try tauto. }
  apply Rnot_le_lt in Ha, Hp.
  assert (Hpp : 0 < arcLength cnt * arcLength cnt) by (apply Rmult_lt_0_compat; lra).
  destruct (Rle_dec (contourArea hull) eps) as [Hah|Hah];
    [|destruct (Rle_dec (arcLength hull) eps) as [Hph|Hph]].
  - pose proof (cpp_hull_degenerate c0 rest Ha Hp (or_introl Hah)) as E.
    rewrite E. simpl. split; [split|].
    + intros [?|?]; exfalso; lra.
    + intros _. split; [reflexivity|]. intros d [<-|[]]. auto.
    + repeat constructor. exact Hpp.
  - pose proof (cpp_hull_degenerate c0 rest Ha Hp (or_intror Hph)) as E.
    rewrite E. simpl. split; [split|].
    + intros [?|?]; exfalso; lra.
    + intros _. split; [reflexivity|]. intros d [<-|[]]. auto.
    + repeat constructor. exact Hpp.
  - apply Rnot_le_lt in Hah, Hph.
    pose proof (cpp_regular c0 rest Ha Hp Hah Hph) as E. rewrite E. simpl.
    subst hull cnt.
    split; [split|].
    + intros [?|?]; exfalso; lra.
    + intros [?|?]; exfalso; lra.
    + repeat constructor; auto.
      * apply Rmult_lt_0_compat; lra.
      * lra.
      * apply Rdiv_lt_0_compat; [|exact Hpp].
        apply Rmult_lt_0_compat; [|lra]. lra.
Qed.

End CppMetrics.

(** ** The selection step in c++.cpp and ypc.cpp *)

Section SelectionInCode.
Context `{Imaging}.


End SelectionInCode.

(** ** The metrics of original-thread.cpp *)

Section ThreadMetrics.
Context `{Imaging}.
Import OriginalThread.

Lemma thread_original_degenerate (c0 : Contour) (rest : list Contour) :
  let cnt := Std.max_element_from area_less c0 rest in
  contourArea cnt <= eps \/ arcLength cnt <= eps ->
  calculate_contour_metrics (c0 :: rest) = (ContourMetrics_zero, []).
Proof.
  intros cnt Hg. apply guard_true in Hg. unfold calculate_contour_metrics.
  fold cnt. now rewrite Hg.
Qed.

Lemma thread_hull_degenerate (c0 : Contour) (rest : list Contour) :
  let cnt := Std.max_element_from area_less c0 rest in
  let hull := convexHull cnt in
  eps < contourArea cnt -> eps < arcLength cnt ->
  contourArea hull <= eps \/ arcLength hull <= eps ->
  calculate_contour_metrics (c0 :: rest) = (ContourMetrics_zero, [arcLength cnt]).
Proof.
  intros cnt hull Ha Hp Hg. apply guard_true in Hg.
  assert (Hg0 : double_le (contourArea cnt) eps || double_le (arcLength cnt) eps = false)
    by (apply guard_false; tauto).
  unfold calculate_contour_metrics. fold cnt. rewrite Hg0.
  unfold Div.bind, Div.div, Div.ret. fold hull. now rewrite Hg.
Qed.

Lemma thread_regular (c0 : Contour) (rest : list Contour) :
  let cnt := Std.max_element_from area_less c0 rest in
  let hull := convexHull cnt in
  let co := 2 * sqrt (PI * contourArea cnt) / arcLength cnt in
  let ch := 2 * sqrt (PI * contourArea hull) / arcLength hull in
  eps < contourArea cnt -> eps < arcLength cnt ->
  eps < contourArea hull -> eps < arcLength hull ->
  calculate_contour_metrics (c0 :: rest)
  = ({| area_original := contourArea cnt;
        area_hull := contourArea hull;
        area_ratio := contourArea hull / contourArea cnt;
        circularity_original := co;
        circularity_hull := ch;
        circularity_ratio := ch / co |},
     [arcLength cnt; arcLength hull; contourArea cnt; co]).
Proof.
  intros cnt hull co ch Ha Hp Hah Hph.
  assert (Hg0 : double_le (contourArea cnt) eps || double_le (arcLength cnt) eps = false)
    by (apply guard_false; tauto).
  assert (Hg1 : double_le (contourArea hull) eps || double_le (arcLength hull) eps = false)
    by (apply guard_false; tauto).
  unfold calculate_contour_metrics. fold cnt. rewrite Hg0.
  unfold Div.bind, Div.div, Div.ret. fold hull. now rewrite Hg1.
Qed.

(** original-thread.cpp guards its divisions the same way as c++.cpp. *)
Lemma thread_guard_protects_divisions (c0 : Contour) (rest : list Contour) :
  let cnt := Std.max_element_from area_less c0 rest in
  let hull := convexHull cnt in
  let m := calculate_contour_metrics (c0 :: rest) in
  (contourArea cnt <= eps \/ arcLength cnt <= eps \/
   contourArea hull <= eps \/ arcLength hull <= eps ->
   Div.value m = ContourMetrics_zero)
  /\ Forall (fun d => 0 < d) (Div.divisors m).
Proof.
  intros cnt hull m. subst m.
  pose proof eps_pos as He. pose proof PI_RGT_0 as Hpi.
  destruct (Rle_dec (contourArea cnt) eps) as [Ha|Ha].
  { rewrite (thread_original_degenerate c0 rest (or_introl Ha)). simpl. auto. }
  destruct (Rle_dec (arcLength cnt) eps) as [Hp|Hp].
  { rewrite (thread_original_degenerate c0 rest (or_intror Hp)). simpl. auto. }
  apply Rnot_le_lt in Ha, Hp.
  destruct (Rle_dec (contourArea hull) eps) as [Hah|Hah];
    [|destruct (Rle_dec (arcLength hull) eps) as [Hph|Hph]].
  - rewrite (thread_hull_degenerate c0 rest Ha Hp (or_introl Hah)). simpl.
    split; [reflexivity|]. repeat constructor. fold cnt. lra.
  - rewrite (thread_hull_degenerate c0 rest Ha Hp (or_intror Hph)). simpl.
    split; [reflexivity|]. repeat constructor. fold cnt. lra.
  - apply Rnot_le_lt in Hah, Hph.
    rewrite (thread_regular c0 rest Ha Hp Hah Hph). simpl. subst hull cnt.
    split; [intros [?|[?|[?|?]]]; exfalso; lra|].
    repeat constructor; try lra.
    apply Rdiv_lt_0_compat; [|lra].
    apply Rmult_lt_0_compat; [lra|].
    apply sqrt_lt_R0. apply Rmult_lt_0_compat; lra.
Qed.

End ThreadMetrics.

(** ** The area ratio *)

Section AreaRatio.
Context `{Imaging}.

Lemma speed_area_fields (indeterminate : Speed.ContourMetrics)
    (c0 : Contour) (rest : list Contour) :
  let cnt := Std.max_element_from area_less c0 rest in
  let m := Div.value (Speed.calculate_contour_metrics indeterminate (c0 :: rest)) in
  0 < contourArea cnt ->
  Speed.area_original m = contourArea cnt
  /\ Speed.area_hull m = contourArea (convexHull cnt)
  /\ Speed.area_ratio m = contourArea (convexHull cnt) / contourArea cnt.
Proof.
  intros cnt m Ha. subst m. unfold Speed.calculate_contour_metrics.
  fold cnt. apply double_lt_true in Ha. rewrite Ha.
  unfold Div.bind, Div.div, Div.ret, Div.value.
  repeat match goal with
         | |- context [if ?b then _ else _] => destruct b
         end; simpl; auto.
Qed.

Lemma ratio_ge_1 (a h : double) : 0 < a -> (1 <= h / a <-> a <= h).
Proof.
  intros Ha. split; intros Hle.
  - apply Rmult_le_compat_r with (r := a) in Hle; [|lra].
    unfold Rdiv in Hle. rewrite Rmult_assoc, Rinv_l in Hle; lra.
  - apply Rmult_le_reg_r with (r := a); [lra|].
    unfold Rdiv. rewrite Rmult_assoc, Rinv_l; lra.
Qed.

(** The area ratio as the code has it.  When the selected contour and its
    hull pass the guards, c++.cpp and speed.cpp report the two areas as
    the primitives give them and [area_ratio = area_hull / area_original];
    the ratio is at least 1 exactly when the hull's area is at least the
    contour's area.  Whether it is, rests on the curves [findContours]
    returns and on the two primitives, not on this code. *)
Theorem area_ratio_is_hull_over_original :
  forall (c0 : Contour) (rest : list Contour) (indeterminate : Speed.ContourMetrics),
    let cnt := Std.max_element_from area_less c0 rest in
    let hull := convexHull cnt in
    let m := Div.value (Cpp.calculate_contour_metrics (c0 :: rest)) in
    let ms := Div.value (Speed.calculate_contour_metrics indeterminate (c0 :: rest)) in
    eps < contourArea cnt -> eps < arcLength cnt ->
    eps < contourArea hull -> eps < arcLength hull ->
    (Cpp.area_original m = contourArea cnt
     /\ Cpp.area_hull m = contourArea hull
     /\ Cpp.area_ratio m = Cpp.area_hull m / Cpp.area_original m
     /\ (1 <= Cpp.area_ratio m <-> Cpp.area_original m <= Cpp.area_hull m))
    /\ (Speed.area_original ms = contourArea cnt
        /\ Speed.area_hull ms = contourArea hull
        /\ Speed.area_ratio ms = Speed.area_hull ms / Speed.area_original ms
        /\ (1 <= Speed.area_ratio ms <-> Speed.area_original ms <= Speed.area_hull ms)).
Proof.
  intros c0 rest indeterminate cnt hull m ms Ha Hp Hah Hph.
  pose proof eps_pos as He. split.
  - subst m. rewrite (cpp_regular c0 rest Ha Hp Hah Hph). simpl.
    repeat split; try (apply ratio_ge_1; fold cnt; lra).
  - assert (Ha0 : 0 < contourArea cnt) by lra.
    destruct (speed_area_fields indeterminate c0 rest Ha0) as (E1 & E2 & E3).
    subst ms. fold cnt hull in E1, E2, E3 |- *. rewrite E1, E2, E3.
    repeat split; try (apply ratio_ge_1; lra).
Qed.

End AreaRatio.

(** ** The reference primitives on concrete contours *)

Module ReferenceFacts.
Import Reference Samples.

Lemma sqrt_IZR_square (d : Z) : (0 <= d)%Z -> sqrt (IZR (d * d)) = IZR d.
Proof.
  intros Hd. rewrite mult_IZR. apply sqrt_square. now apply IZR_le.
Qed.

Lemma dist_exact (p q : Point) (d : Z) :
  (0 <= d)%Z ->
  ((fst q - fst p) * (fst q - fst p) + (snd q - snd p) * (snd q - snd p) = d * d)%Z ->
  dist p q = IZR d.
Proof.
  intros Hd E. unfold dist. rewrite E. now apply sqrt_IZR_square.
Qed.

Ltac edge d := rewrite (dist_exact _ _ d) by (first [lia | reflexivity]).

Lemma area_of_shoelace (c : Contour) (z : Z) :
  shoelace2 c = z -> (0 <= z)%Z -> contourArea c = IZR z / 2.
Proof.
  intros E Hz. simpl. unfold area_ref. rewrite E.
  rewrite Rabs_pos_eq; [reflexivity | now apply IZR_le].
Qed.

Lemma twice_square_area : contourArea twice_square = 8.
Proof. rewrite (area_of_shoelace _ 16); [lra | reflexivity | lia]. Qed.

Lemma square_area : contourArea square = 4.
Proof. rewrite (area_of_shoelace _ 8); [lra | reflexivity | lia]. Qed.

Lemma twice_square_perimeter : arcLength twice_square = 16.
Proof.
  simpl. unfold perimeter_ref, twice_square, path_length, last.
  repeat edge 2%Z. lra.
Qed.

Lemma square_perimeter : arcLength square = 8.
Proof.
  simpl. unfold perimeter_ref, square, path_length, last.
  repeat edge 2%Z. lra.
Qed.

Lemma twice_square_hull : convexHull twice_square = square.
Proof. reflexivity. Qed.

Lemma square_hull : convexHull square = square.
Proof. reflexivity. Qed.

Lemma pixel_area : contourArea pixel = 0.
Proof. rewrite (area_of_shoelace _ 0); [lra | reflexivity | lia]. Qed.

Lemma pixel_perimeter : arcLength pixel = 0.
Proof.
  simpl. unfold perimeter_ref, pixel, path_length, last.
  edge 0%Z. lra.
Qed.

Lemma pixel_hull : convexHull pixel = pixel.
Proof. reflexivity. Qed.

End ReferenceFacts.

Module AreaRatioExamples.
Import Samples ReferenceFacts.

(** The guards of a contour list whose largest contour is [square]. *)
Lemma square_passes_guards :
  eps < contourArea square /\ eps < arcLength square
  /\ eps < contourArea (convexHull square) /\ eps < arcLength (convexHull square).
Proof.
  rewrite square_hull, square_area, square_perimeter. unfold eps. lra.
Qed.

(** At a plain square the hull is the square itself and the ratio is 1. *)
Lemma area_ratio_of_square :
  (eps < contourArea square /\ eps < arcLength square)
  /\ 1 <= Cpp.area_ratio (Div.value (Cpp.calculate_contour_metrics [square])).
Proof.
  destruct square_passes_guards as (Ha & Hp & Hah & Hph).
  split; [tauto|].
  destruct (area_ratio_is_hull_over_original square [] Speed.ContourMetrics_value_init
              Ha Hp Hah Hph) as [(E1 & E2 & _ & Hiff) _].
  apply Hiff. rewrite E1, E2. cbn [Std.max_element_from]. rewrite square_hull. lra.
Defined.

(** A point list that is not the boundary curve of a region, the square
    outlined twice, handed to [calculate_contour_metrics] as it is: it
    passes both guards, its area by the shoelace formula counts the square
    twice (8), its hull is the square (4), and c++.cpp reports the ratio
    1/2.  [findContours] does not return such a list; the example only
    shows that the metrics code relies on its callers for that. *)
Lemma twice_outlined_square_ratio :
  eps < contourArea twice_square /\ eps < arcLength twice_square
  /\ Cpp.area_original (Div.value (Cpp.calculate_contour_metrics [twice_square])) = 8
  /\ Cpp.area_hull (Div.value (Cpp.calculate_contour_metrics [twice_square])) = 4
  /\ Cpp.area_ratio (Div.value (Cpp.calculate_contour_metrics [twice_square])) = 1 / 2
  /\ Cpp.area_ratio (Div.value (Cpp.calculate_contour_metrics [twice_square])) < 1.
Proof.
  assert (Ha : eps < contourArea twice_square)
    by (rewrite twice_square_area; unfold eps; lra).
  assert (Hp : eps < arcLength twice_square)
    by (rewrite twice_square_perimeter; unfold eps; lra).
  assert (Hah : eps < contourArea (convexHull twice_square))
    by (rewrite twice_square_hull, square_area; unfold eps; lra).
  assert (Hph : eps < arcLength (convexHull twice_square))
    by (rewrite twice_square_hull, square_perimeter; unfold eps; lra).
  rewrite (cpp_regular twice_square [] Ha Hp Hah Hph).
  cbn [Std.max_element_from Div.value fst Cpp.area_original Cpp.area_hull Cpp.area_ratio].
  rewrite twice_square_hull, twice_square_area, square_area.
  unfold eps in *. repeat split; try assumption; lra.
Qed.

End AreaRatioExamples.

(** ** Empty and degenerate input *)

Section EmptyInput.
Context `{Imaging}.

(** c++.cpp and original-thread.cpp: the empty collection gives the
    all-zero record and no division runs. *)
Lemma cpp_empty_input_all_zero :
  Cpp.calculate_contour_metrics [] = (Cpp.ContourMetrics_default, [])
  /\ OriginalThread.calculate_contour_metrics []
     = (OriginalThread.ContourMetrics_zero, []).
Proof. split; reflexivity. Qed.

(** C4 at speed.cpp and Tbb.cpp: for the empty collection
    [calculate_contour_metrics] returns its local [results] as declared,
    so the six doubles are whatever the storage held; with storage that
    held 1 .. 6 the returned [area_original] is 1, not 0.  In Tbb.cpp the
    loop of [main] reaches this for every readable frame on which
    [findContours] finds nothing. *)
Theorem empty_input_returns_uninitialised_fields :
  (forall indeterminate : Speed.ContourMetrics,
     Speed.calculate_contour_metrics indeterminate []
     = ({| Speed.area_original := Speed.area_original indeterminate;
           Speed.area_hull := Speed.area_hull indeterminate;
           Speed.area_ratio := Speed.area_ratio indeterminate;
           Speed.circularity_original := Speed.circularity_original indeterminate;
           Speed.circularity_hull := Speed.circularity_hull indeterminate;
           Speed.circularity_ratio := Speed.circularity_ratio indeterminate;
           Speed.contour := []; Speed.hull := [] |}, []))
  /\ Div.value (Speed.calculate_contour_metrics Samples.leftover []) = Samples.leftover
  /\ Speed.area_original
       (Div.value (Speed.calculate_contour_metrics Samples.leftover [])) = 1
  /\ Tbb.area_original
       (Div.value (Tbb.calculate_contour_metrics Samples.leftover_tbb [])) = 1
  /\ (forall (imread : string -> Mat) (findContours : Mat -> Mat -> list Contour)
             (elapsed : string -> Z) (background : Mat) (image_path : string),
        Mat_empty (imread image_path) = false ->
        findContours background (imread image_path) = [] ->
        Tbb.results
          (Tbb.process_range imread findContours elapsed
             (fun _ => Samples.leftover_tbb) background [image_path])
        = [Samples.leftover_tbb]).
Proof.
  repeat split. intros imread findContours elapsed background image_path Himg Hnone.
  unfold Tbb.process_range. cbn [fold_left]. unfold Tbb.loop_body.
  rewrite Himg. unfold Tbb.process_image. rewrite Hnone. reflexivity.
Qed.

(** Tbb.cpp divides without any guard: on a non-empty collection the four
    divisions always run, by the two perimeters, by the contour's area and
    by its circularity. *)
Lemma tbb_divisions_unguarded (indeterminate : Tbb.ContourMetrics)
    (c0 : Contour) (rest : list Contour) :
  let cnt := Std.max_element_from area_less c0 rest in
  let hull := convexHull cnt in
  Div.divisors (Tbb.calculate_contour_metrics indeterminate (c0 :: rest))
  = [arcLength cnt; arcLength hull; contourArea cnt;
     2 * sqrt (PI * contourArea cnt) / arcLength cnt].
Proof. reflexivity. Qed.

(** C5 at Tbb.cpp: [calculate_contour_metrics] has no guard.  When the
    area or the perimeter of the selected contour, or the perimeter of its
    hull, is at or below 1e-6, a division by that very quantity is still
    performed. *)
Theorem tbb_divides_without_guard :
  forall (indeterminate : Tbb.ContourMetrics) (c0 : Contour) (rest : list Contour),
    let cnt := Std.max_element_from area_less c0 rest in
    let hull := convexHull cnt in
    contourArea cnt <= eps \/ arcLength cnt <= eps \/ arcLength hull <= eps ->
    exists d,
      In d (Div.divisors (Tbb.calculate_contour_metrics indeterminate (c0 :: rest)))
      /\ d <= eps.
Proof.
  intros indeterminate c0 rest cnt hull Hg.
  rewrite tbb_divisions_unguarded. fold cnt hull.
  destruct Hg as [Ha|[Hp|Hph]].
  - exists (contourArea cnt). simpl. auto.
  - exists (arcLength cnt). simpl. auto.
  - exists (arcLength hull). simpl. auto.
Qed.

End EmptyInput.

Module DegenerateExamples.
Import Samples ReferenceFacts.

(** At a contour of one pixel (area 0, perimeter 0) Tbb.cpp divides by
    the perimeter of the contour, by the perimeter of its hull and by the
    area: the first three divisors are 0. *)
Lemma tbb_pixel_divisors :
  exists d,
    Div.divisors (Tbb.calculate_contour_metrics leftover_tbb [pixel]) = [0; 0; 0; d].
Proof.
  rewrite tbb_divisions_unguarded. cbn [Std.max_element_from].
  rewrite pixel_hull, pixel_area, pixel_perimeter. eexists. reflexivity.
Qed.

Lemma tbb_divides_at_pixel :
  contourArea pixel <= eps
  /\ exists d,
       In d (Div.divisors (Tbb.calculate_contour_metrics leftover_tbb [pixel]))
       /\ d <= eps.
Proof.
  assert (Ha : contourArea pixel <= eps)
    by (rewrite pixel_area; pose proof eps_pos; lra).
  split; [exact Ha|].
  apply (tbb_divides_without_guard leftover_tbb pixel []).
  left. exact Ha.
Defined.

(** The same contour in c++.cpp stops at the first guard. *)
Lemma cpp_pixel_guarded :
  Cpp.calculate_contour_metrics [pixel] = (Cpp.ContourMetrics_default, []).
Proof.
  apply (cpp_original_degenerate pixel []). left.
  cbn [Std.max_element_from]. rewrite pixel_area. pose proof eps_pos. lra.
Qed.

End DegenerateExamples.

(** ** The totals of c++.cpp *)

Section CppTotals.
Context `{Imaging}.
Import Cpp.

Lemma wrap_int_small (z : Z) :
  (- 2147483648 <= z < 2147483648)%Z -> wrap_int z = z.
Proof.
  intros Hz. unfold wrap_int. rewrite Z.mod_small; lia.
Qed.

Lemma process_single_image_nothing_found (f : Frame)
    (contours : list Contour) (metrics : ContourMetrics) (duration : double) :
  found f = [] ->
  process_single_image f contours metrics duration = ([], metrics, duration).
Proof.
  intros E. unfold process_single_image. now rewrite E.
Qed.

Lemma worker_turn_time (st : Stats) (f : Frame) :
  average_time (worker_turn st f) = average_time st + recorded f.
Proof.
  unfold worker_turn, process_single_image, recorded.
  destruct (found f); reflexivity.
Qed.

Lemma worker_turn_number (st : Stats) (f : Frame) :
  number (worker_turn st f) = wrap_int (number st + 1).
Proof.
  unfold worker_turn, process_single_image. destruct (found f); reflexivity.
Qed.

Lemma worker_turns_totals (frames : list Frame) (st : Stats) :
  (0 <= number st)%Z ->
  (number st + Z.of_nat (List.length frames) < 2147483648)%Z ->
  number (fold_left worker_turn frames st)
  = (number st + Z.of_nat (List.length frames))%Z
  /\ average_time (fold_left worker_turn frames st)
     = average_time st + sum (map recorded frames).
Proof.
  revert st. induction frames as [|f frames IH]; intros st H0 Hlen.
  - simpl. split; [lia | lra].
  - change (fold_left worker_turn (f :: frames) st)
      with (fold_left worker_turn frames (worker_turn st f)).
    change (sum (map recorded (f :: frames)))
      with (recorded f + sum (map recorded frames)).
    cbn [List.length] in *. rewrite Nat2Z.inj_succ in *.
    assert (En : number (worker_turn st f) = (number st + 1)%Z)
      by (rewrite worker_turn_number; apply wrap_int_small; lia).
    destruct (IH (worker_turn st f)) as [E1 E2]; [lia | lia |].
    rewrite E1, E2, En, worker_turn_time. split; [lia | lra].
Qed.

(** The maximum of c++.cpp: it bounds every recorded value, and it is 0 or
    one of the recorded values. *)
Lemma cpp_maximum_of_recorded (frames : list Frame) :
  let st := fold_left worker_turn frames Stats_init in
  0 <= max_process_time st
  /\ (forall g, In g frames -> recorded g <= max_process_time st)
  /\ (max_process_time st = 0
      \/ exists f, In f frames /\ recorded f = max_process_time st).
Proof.
  induction frames as [|f frames IH] using rev_ind.
  - simpl. split; [lra|]. split; [tauto | now left].
  - cbv zeta in *. rewrite fold_left_app. cbn [fold_left].
    set (st := fold_left worker_turn frames Stats_init) in *.
    destruct IH as (H0 & Hmax & Hid).
    assert (E : max_process_time (worker_turn st f)
                = if double_lt (max_process_time st) (recorded f)
                  then recorded f else max_process_time st).
    { unfold worker_turn, process_single_image, recorded.
      destruct (found f); reflexivity. }
    rewrite E. clear E.
    destruct (double_lt (max_process_time st) (recorded f)) eqn:Hlt.
    + apply double_lt_true in Hlt. split; [lra|]. split.
      * intros g Hg. apply in_app_or in Hg. destruct Hg as [Hg|[<-|[]]].
        -- specialize (Hmax g Hg). lra.
        -- lra.
      * right. exists f. split; [apply in_or_app; right; now left | reflexivity].
    + apply double_lt_false in Hlt. split; [lra|]. split.
      * intros g Hg. apply in_app_or in Hg. destruct Hg as [Hg|[<-|[]]]; auto.
      * destruct Hid as [Hz|(f1 & Hin & E1)]; [now left|].
        right. exists f1. split; [apply in_or_app; now left | exact E1].
Qed.

(** C10.  When [findContours] finds nothing, [process_single_image] returns
    with [metrics] and [duration] as the caller passed them; the worker
    then adds its still uninitialised [process_time] to [average_time] and
    increments [number].  So after a run [number] counts every frame and
    the time total is the sum, over the frames, of the measured time where
    a contour was found and of the indeterminate value where none was. *)
Theorem contourless_frame_is_counted :
  forall frames : list Frame,
    (Z.of_nat (List.length frames) < 2147483648)%Z ->
    let st := fold_left worker_turn frames Stats_init in
    (forall f contours metrics duration,
        found f = [] ->
        process_single_image f contours metrics duration = ([], metrics, duration))
    /\ (forall st0 f,
          found f = [] ->
          average_time (worker_turn st0 f) = average_time st0 + indeterminate f
          /\ number (worker_turn st0 f) = wrap_int (number st0 + 1))
    /\ number st = Z.of_nat (List.length frames)
    /\ average_time st = sum (map recorded frames)
    /\ (forall before f after,
          frames = before ++ f :: after ->
          found f = [] ->
          average_time st
          = sum (map recorded before) + indeterminate f + sum (map recorded after))
    /\ snd (run_experiment frames)
       = sum (map recorded frames) / IZR (Z.of_nat (List.length frames)).
Proof.
  intros frames Hlen st.
  destruct (worker_turns_totals frames Stats_init) as [En Et];
    [simpl; lia | simpl; lia |].
  fold st in En, Et. simpl in En, Et. rewrite Rplus_0_l in Et.
  split; [|split; [|split; [|split; [|split]]]].
  - intros. now apply process_single_image_nothing_found.
  - intros st0 f E. rewrite worker_turn_time, worker_turn_number.
    unfold recorded. now rewrite E.
  - exact En.
  - exact Et.
  - intros before f after -> E. rewrite Et, map_app, sum_app. simpl.
    unfold recorded at 2. rewrite E. lra.
  - unfold run_experiment. fold st. simpl. now rewrite En, Et.
Qed.

End CppTotals.

Module CppTotalsExamples.
Import Samples Cpp.

(** One frame without contours: it is counted, and the reported mean is
    the 123 that the uninitialised local held, not a measured time. *)
Lemma blank_frame_enters_the_mean :
  found blank_frame = []
  /\ snd (run_experiment [blank_frame]) = 123.
Proof.
  split; [reflexivity|].
  destruct (contourless_frame_is_counted [blank_frame]) as (_ & _ & _ & _ & _ & E).
  - simpl. lia.
  - rewrite E. simpl. unfold recorded. simpl. lra.
Defined.

End CppTotalsExamples.

(** ** The totals of original-thread.cpp *)

Section ThreadTotals.
Context `{Imaging}.
Import OriginalThread.

Lemma worker_turn_timed (st : Totals) (f : Frame) :
  found f <> [] ->
  worker_turn st f
  = {| totaltime_c := totaltime_c st + elapsed f;
       max_processing_time :=
         if double_lt (max_processing_time st) (elapsed f)
         then elapsed f else max_processing_time st;
       max_processing_time_image :=
         if double_lt (max_processing_time st) (elapsed f)
         then filename f else max_processing_time_image st;
       numbersum := numbersum st + 1;
       number := numbersum st + 1 |}.
Proof.
  intros Hf. unfold worker_turn, process_image_origin.
  destruct (found f); [contradiction | reflexivity].
Qed.

Lemma totals_after (frames : list Frame) :
  Forall timed_frame frames ->
  totals_of frames (fold_left worker_turn frames Totals_init).
Proof.
  induction frames as [|f frames IH] using rev_ind; intros Hall.
  - unfold totals_of. simpl. repeat split; try lra; try tauto.
  - apply Forall_app in Hall. destruct Hall as [Hall Hf].
    apply Forall_inv in Hf. destruct Hf as [Hfound Hpos].
    destruct (IH Hall) as (Et & En & Es & H0 & Hmax & Hid).
    rewrite fold_left_app. cbn [fold_left].
    set (st := fold_left worker_turn frames Totals_init) in *.
    rewrite (worker_turn_timed st f Hfound). unfold totals_of. cbn.
    rewrite map_app, sum_app, length_app, plus_INR. cbn.
    split; [lra|]. split; [lra|]. split; [reflexivity|].
    destruct (double_lt (max_processing_time st) (elapsed f)) eqn:E.
    + apply double_lt_true in E. split; [lra|]. split.
      * intros g Hg. apply in_app_or in Hg. destruct Hg as [Hg|[<-|[]]].
        -- specialize (Hmax g Hg). lra.
        -- lra.
      * intros _. exists f. split; [apply in_or_app; right; now left | auto].
    + apply double_lt_false in E. split; [lra|]. split.
      * intros g Hg. apply in_app_or in Hg. destruct Hg as [Hg|[<-|[]]]; auto.
      * intros _. destruct frames as [|f0 frames'].
        -- simpl in *. subst st. simpl in E. lra.
        -- destruct Hid as (f1 & Hin & E1 & E2); [discriminate|].
           exists f1. split; [apply in_or_app; now left | auto].
Qed.

(** Over frames whose time is recorded (a contour is found in each and
    the clock moved), [thread_main] reports the sum of the times divided
    by their number, the largest time, and the file name of a frame that
    took exactly that time.  For three such frames taking 10, 30 and 20,
    handled in any order, it reports the mean 20, the maximum 30 and the
    file name of the frame that took 30. *)
Theorem mean_and_max_of_processing_times :
  forall frames : list Frame,
    Forall timed_frame frames ->
    (fst (fst (thread_main frames))
     = sum (map elapsed frames) / INR (List.length frames)
     /\ (forall g, In g frames -> elapsed g <= snd (fst (thread_main frames)))
     /\ (frames <> [] ->
         exists f, In f frames
                   /\ elapsed f = snd (fst (thread_main frames))
                   /\ filename f = snd (thread_main frames)))
    /\ (forall fa fb fc,
          Permutation frames [fa; fb; fc] ->
          elapsed fa = 10 -> elapsed fb = 30 -> elapsed fc = 20 ->
          thread_main frames = (20, 30, filename fb)).
Proof.
  intros frames Hall.
  destruct (totals_after frames Hall) as (Et & En & Es & H0 & Hmax & Hid).
  unfold thread_main. cbn [fst snd].
  set (st := fold_left worker_turn frames Totals_init) in *.
  split.
  - rewrite Et, En. auto.
  - intros fa fb fc Hperm Ea Eb Ec.
    assert (Hsum : sum (map elapsed frames) = 60).
    { rewrite (sum_Permutation _ _ (Permutation_map elapsed Hperm)).
      simpl. rewrite Ea, Eb, Ec. lra. }
    assert (Hlen : List.length frames = 3%nat)
      by (rewrite (Permutation_length Hperm); reflexivity).
    assert (Hb : 30 <= max_processing_time st).
    { rewrite <- Eb. apply Hmax.
      apply (Permutation_in _ (Permutation_sym Hperm)). simpl. auto. }
    destruct Hid as (f & Hin & E1 & E2).
    { intros ->. discriminate. }
    apply (Permutation_in _ Hperm) in Hin.
    assert (Hf : f = fb).
    { destruct Hin as [<-|[<-|[<-|[]]]]; [exfalso; lra | reflexivity | exfalso; lra]. }
    subst f. rewrite Et, En, Hsum, Hlen, <- E1, <- E2, Eb. simpl.
    f_equal. f_equal. lra.
Qed.

End ThreadTotals.

Module ThreadTotalsExamples.
Import Samples OriginalThread.

Lemma three_frames_timed : Forall timed_frame [frame20; frame10; frame30].
Proof.
  repeat constructor; simpl; try discriminate; lra.
Qed.

(** The worker pops the 20, the 10 and then the 30 microsecond frame. *)
Lemma three_frames_any_order :
  thread_main [frame20; frame10; frame30] = (20, 30, "f2.tiff"%string).
Proof.
  destruct (mean_and_max_of_processing_times _ three_frames_timed) as [_ Hscenario].
  apply (Hscenario frame10 frame30 frame20); try reflexivity.
  apply Permutation_sym.
  apply perm_trans with [frame10; frame20; frame30].
  - apply perm_skip, perm_swap.
  - apply perm_swap.
Defined.

End ThreadTotalsExamples.

(** ** Frames that cannot be loaded *)

Section LoadFailure.
Context `{Imaging}.

Section TbbLoop.
Variable imread : string -> Mat.
Variable findContours : Mat -> Mat -> list Contour.
Variable elapsed : string -> Z.
Variable indeterminate : string -> Tbb.ContourMetrics.
Variable background : Mat.

Let body := Tbb.loop_body imread findContours elapsed indeterminate background.

Lemma tbb_body_unreadable (run : Tbb.Run) (bad : string) :
  imread bad = [] ->
  body run bad
  = {| Tbb.processing_times := Tbb.processing_times run;
       Tbb.results := Tbb.results run;
       Tbb.cout := Tbb.cout run ++ [Tbb.unable_to_read bad] |}.
Proof.
  intros Hbad. unfold body, Tbb.loop_body. now rewrite Hbad.
Qed.

Lemma tbb_records_ignore_cout (l : list string) (s1 s2 : Tbb.Run) :
  Tbb.processing_times s1 = Tbb.processing_times s2 ->
  Tbb.results s1 = Tbb.results s2 ->
  Tbb.processing_times (fold_left body l s1) = Tbb.processing_times (fold_left body l s2)
  /\ Tbb.results (fold_left body l s1) = Tbb.results (fold_left body l s2).
Proof.
  revert s1 s2. induction l as [|a l IH]; intros s1 s2 E1 E2; [now auto|].
  cbn [fold_left]. apply IH.
  - unfold body, Tbb.loop_body. destruct (Mat_empty (imread a)); simpl; congruence.
  - unfold body, Tbb.loop_body. destruct (Mat_empty (imread a)); simpl; congruence.
Qed.

Lemma tbb_cout_grows (l : list string) (s : Tbb.Run) (line : string) :
  In line (Tbb.cout s) -> In line (Tbb.cout (fold_left body l s)).
Proof.
  revert s. induction l as [|a l IH]; intros s Hin; [exact Hin|].
  cbn [fold_left]. apply IH.
  unfold body, Tbb.loop_body. destruct (Mat_empty (imread a)); simpl; auto.
  apply in_or_app. now left.
Qed.

(** Tbb.cpp skips a frame that cannot be read: it is reported, nothing is
    recorded for it, and the frames after it are handled as if it had not
    been there. *)
Lemma tbb_skips_unreadable_frame (before after : list string) (bad : string) :
  imread bad = [] ->
  let go := Tbb.process_range imread findContours elapsed indeterminate background in
  Tbb.processing_times (go (before ++ bad :: after))
  = Tbb.processing_times (go (before ++ after))
  /\ Tbb.results (go (before ++ bad :: after)) = Tbb.results (go (before ++ after))
  /\ In (Tbb.unable_to_read bad) (Tbb.cout (go (before ++ bad :: after))).
Proof.
  intros Hbad go. subst go. unfold Tbb.process_range. fold body.
  rewrite !fold_left_app. cbn [fold_left].
  rewrite (tbb_body_unreadable _ bad Hbad).
  set (st := fold_left body before Tbb.Run_init).
  split; [|split].
  - now apply tbb_records_ignore_cout.
  - now apply tbb_records_ignore_cout.
  - apply tbb_cout_grows. simpl. apply in_or_app. right. now left.
Qed.

End TbbLoop.

End LoadFailure.

Section LoadFailureInPipelines.
Context `{Imaging}.
Import Samples.

(** C7 at ypc.cpp and speed.cpp, for a directory whose first file cannot
    be decoded.

    ypc.cpp: [worker_load] pushes the empty image like any other frame;
    [worker_process] takes it for the sentinel and stops; the frame behind
    it stays in the queue and never gets a result.

    speed.cpp: the failure is reported and the run goes on, yet
    [process_file] still records a time and an all-zero result for the
    frame. *)
Theorem unreadable_frame_not_skipped :
  (forall (filename : string -> string) (process_image : Mat -> Mat -> Mat)
          (find_contours : Mat -> list Contour) (elapsed : string -> double)
          (blurred_bg : Mat),
      Ypc.run disk filename process_image find_contours elapsed
        ["bad.tiff"; "good.tiff"]%string blurred_bg
      = Ypc.Finished
          {| Ypc.loaded :=
               [ {| Ypc.image := []; Ypc.name := filename "bad.tiff"%string |};
                 {| Ypc.image := [[255%Z]]; Ypc.name := filename "good.tiff"%string |};
                 Ypc.sentinel ];
             Ypc.unprocessed :=
               [ {| Ypc.image := [[255%Z]]; Ypc.name := filename "good.tiff"%string |};
                 Ypc.sentinel ];
             Ypc.uncontoured := [];
             Ypc.results := [];
             Ypc.processing_times := [] |})
  /\ (forall (findContours : Mat -> Mat -> list Contour) (elapsed : string -> double)
             (indeterminate : string -> Speed.ContourMetrics) (background : Mat),
        Speed.process_all disk findContours elapsed indeterminate background
          ["bad.tiff"%string]
        = {| Speed.processing_times := [elapsed "bad.tiff"%string];
             Speed.results_list := [Speed.ContourMetrics_value_init];
             Speed.cout := [Speed.unable_to_read "bad.tiff"] |}).
Proof.
  split; intros; reflexivity.
Qed.

(** speed.cpp does go on after the failure: the frames behind the
    unreadable one get the results they would get without it. *)
Lemma speed_continues_after_unreadable_frame
    (imread : string -> Mat) (findContours : Mat -> Mat -> list Contour)
    (elapsed : string -> double) (indeterminate : string -> Speed.ContourMetrics)
    (background : Mat) (bad : string) (after : list string) :
  imread bad = [] ->
  let go := Speed.process_all imread findContours elapsed indeterminate background in
  Speed.processing_times (go (bad :: after))
  = elapsed bad :: Speed.processing_times (go after)
  /\ Speed.results_list (go (bad :: after))
     = Speed.ContourMetrics_value_init :: Speed.results_list (go after)
  /\ Speed.cout (go (bad :: after))
     = Speed.unable_to_read bad :: Speed.cout (go after).
Proof.
  intros Hbad go. subst go. unfold Speed.process_all. cbn [fold_left].
  set (body := Speed.process_file imread findContours elapsed indeterminate background).
  assert (E0 : body Speed.Run_init bad
               = {| Speed.processing_times := [elapsed bad];
                    Speed.results_list := [Speed.ContourMetrics_value_init];
                    Speed.cout := [Speed.unable_to_read bad] |}).
  { subst body. unfold Speed.process_file, Speed.process_image. now rewrite Hbad. }
  rewrite E0. clear E0.
  assert (G : forall l s,
             Speed.processing_times (fold_left body l s)
             = Speed.processing_times s
               ++ Speed.processing_times (fold_left body l Speed.Run_init)
             /\ Speed.results_list (fold_left body l s)
                = Speed.results_list s
                  ++ Speed.results_list (fold_left body l Speed.Run_init)
             /\ Speed.cout (fold_left body l s)
                = Speed.cout s ++ Speed.cout (fold_left body l Speed.Run_init)).
  { induction l as [|a l IH]; intros s.
    - simpl. now rewrite !app_nil_r.
    - cbn [fold_left].
      destruct (IH (body s a)) as (A1 & A2 & A3).
      destruct (IH (body Speed.Run_init a)) as (B1 & B2 & B3).
      rewrite A1, A2, A3, B1, B2, B3.
      subst body. unfold Speed.process_file.
      destruct (Speed.process_image imread findContours indeterminate a background)
        as [r lines].
      simpl. now rewrite <- !app_assoc. }
  destruct (G after {| Speed.processing_times := [elapsed bad];
                       Speed.results_list := [Speed.ContourMetrics_value_init];
                       Speed.cout := [Speed.unable_to_read bad] |}) as (G1 & G2 & G3).
  rewrite G1, G2, G3. simpl. auto.
Qed.

(** The average speed.cpp prints is the sum of the recorded times over
    their number, the unreadable frames' times included. *)
Lemma speed_average_is_mean (run : Speed.Run) (t : double) (ts : list double) :
  Speed.processing_times run = t :: ts ->
  Speed.average_time run = Some (sum (t :: ts) / INR (List.length (t :: ts))).
Proof.
  intros E. unfold Speed.average_time. rewrite E. now rewrite accumulate_sum.
Qed.

End LoadFailureInPipelines.

(** * Further properties of the code *)

(** ** The pipeline of ypc.cpp from end to end *)

Section YpcPipeline.
Context `{Imaging}.
Import Ypc Ypc.ThreadSafeQueue.

Variable imread : string -> Mat.
Variable filename : string -> string.
Variable process_image : Mat -> Mat -> Mat.
Variable find_contours : Mat -> list Contour.
Variable elapsed : string -> double.

Let loaded_item := YpcExpected.loaded_item imread filename.
Let processed_item := YpcExpected.processed_item process_image.
Let contoured_item := YpcExpected.contoured_item find_contours.

Lemma worker_load_queue (image_paths : list string) (output_queue : t) :
  worker_load imread filename image_paths output_queue
  = output_queue ++ map loaded_item image_paths ++ [sentinel].
Proof.
  unfold worker_load, push, load_image.
  assert (G : forall l q,
             fold_left (fun q path => q ++ [{| image := imread path; name := filename path |}])
               l q = q ++ map loaded_item l).
  { induction l as [|a l IH]; intros q; simpl.
    - now rewrite app_nil_r.
    - rewrite IH. now rewrite <- app_assoc. }
  rewrite G. now rewrite <- app_assoc.
Qed.

Lemma worker_contour_stops_at_empty_image
    (items : list ImageData) (stop : ImageData) (rest : t)
    (output_queue : list ContourData) (data : ImageData) (fuel : nat) :
  Forall (fun x => Mat_empty (image x) = false) items ->
  Mat_empty (image stop) = true ->
  (List.length items < fuel)%nat ->
  worker_contour find_contours fuel (items ++ stop :: rest) output_queue data
  = Finished (rest, output_queue ++ map contoured_item items ++ [contour_sentinel]).
Proof.
  revert output_queue data fuel.
  induction items as [|x items IH]; intros output_queue data fuel Hall Hstop Hfuel.
  - destruct fuel as [|fuel]; [simpl in Hfuel; lia|].
    simpl. rewrite Hstop. reflexivity.
  - destruct fuel as [|fuel]; [simpl in Hfuel; lia|].
    apply Forall_cons_iff in Hall. destruct Hall as [Hx Hall].
    cbn [worker_contour app pop empty negb]. rewrite Hx. cbn [andb negb].
    rewrite IH by (simpl in Hfuel; auto; lia).
    cbn [map]. now rewrite <- app_assoc.
Qed.

Lemma main_loop_until_empty_name
    (records : list ContourData) (stop : ContourData) (rest : list ContourData)
    (results : list Result) (times : list double) :
  Forall (fun r => string_empty (contour_name r) = false) records ->
  string_empty (contour_name stop) = true ->
  main_loop elapsed (records ++ stop :: rest) results times
  = Finished
      (results ++ flat_map (YpcExpected.entry elapsed) records,
       times ++ map processing_time (flat_map (YpcExpected.entry elapsed) records)).
Proof.
  revert results times.
  induction records as [|r records IH]; intros results times Hall Hstop.
  - simpl. rewrite Hstop. now rewrite !app_nil_r.
  - apply Forall_cons_iff in Hall. destruct Hall as [Hr Hall].
    cbn [app main_loop]. rewrite Hr. cbn [flat_map].
    unfold YpcExpected.entry at 1 3.
    destruct (contours r) as [|c0 cs].
    + cbn [app]. now apply IH.
    + rewrite IH by assumption. cbn [app map processing_time].
      now rewrite <- !app_assoc.
Qed.

(** When every path can be carried through the stages, the run finishes,
    every queue is drained, and [main] ends with exactly the entries of the
    frames that have a contour, in the order of [image_paths], each under
    its file name; [processing_times] lists the times of these entries in
    the same order. *)
Theorem pipeline_delivers_every_frame_in_order :
  forall (image_paths : list string) (blurred_bg : Mat),
    Forall (YpcExpected.carried imread filename process_image blurred_bg) image_paths ->
    exists o,
      run imread filename process_image find_contours elapsed image_paths blurred_bg
      = Finished o
      /\ unprocessed o = [] /\ uncontoured o = []
      /\ results o
         = flat_map
             (fun image_path =>
                YpcExpected.entry elapsed
                  (YpcExpected.record_of imread filename process_image find_contours
                     blurred_bg image_path))
             image_paths
      /\ processing_times o = map processing_time (results o).
Proof.
  intros image_paths blurred_bg Hall.
  unfold run. rewrite worker_load_queue. cbn [app].
  assert (H1 : Forall (fun x => Mat_empty (image x) = false) (map loaded_item image_paths)).
  { apply Forall_map. eapply Forall_impl; [|exact Hall].
    intros a (Ha & _ & _). exact Ha. }
  rewrite (worker_process_stops_at_empty_image process_image
             (map loaded_item image_paths) sentinel [] [] blurred_bg sentinel)
    by (auto; rewrite length_app, !length_map; simpl; lia).
  cbn [bind_stage app].
  assert (H2 : Forall (fun x => Mat_empty (image x) = false)
                 (map (processed_item blurred_bg) (map loaded_item image_paths))).
  { apply Forall_map, Forall_map. eapply Forall_impl; [|exact Hall].
    intros a (_ & Ha & _). exact Ha. }
  rewrite (worker_contour_stops_at_empty_image
             (map (processed_item blurred_bg) (map loaded_item image_paths))
             sentinel [] [] sentinel)
    by (auto; rewrite length_app, !length_map; simpl; lia).
  cbn [bind_stage app].
  rewrite main_loop_until_empty_name.
  - cbn [bind_stage app]. eexists. split; [reflexivity|]. cbn.
    repeat split.
    rewrite !map_map, flat_map_concat_map, map_map, <- flat_map_concat_map.
    reflexivity.
  - apply Forall_map, Forall_map, Forall_map. eapply Forall_impl; [|exact Hall].
    intros a (_ & _ & Ha). exact Ha.
  - reflexivity.
Qed.

End YpcPipeline.

Section YpcTruncation.
Context `{Imaging}.
Import Ypc Ypc.ThreadSafeQueue.

Variable imread : string -> Mat.
Variable filename : string -> string.
Variable process_image : Mat -> Mat -> Mat.
Variable find_contours : Mat -> list Contour.
Variable elapsed : string -> double.

(** The first path whose image does not load ends the run of ypc.cpp for
    everything behind it: the entries are those of the paths in front of
    it, and the frames behind it stay in the first queue, followed by the
    real sentinel. *)
Theorem pipeline_stops_at_first_unreadable_frame :
  forall (before after : list string) (bad : string) (blurred_bg : Mat),
    Forall (YpcExpected.carried imread filename process_image blurred_bg) before ->
    imread bad = [] ->
    exists o,
      run imread filename process_image find_contours elapsed
        (before ++ bad :: after) blurred_bg
      = Finished o
      /\ unprocessed o
         = map (YpcExpected.loaded_item imread filename) after ++ [sentinel]
      /\ results o
         = flat_map
             (fun image_path =>
                YpcExpected.entry elapsed
                  (YpcExpected.record_of imread filename process_image find_contours
                     blurred_bg image_path))
             before.
Proof.
  intros before after bad blurred_bg Hall Hbad.
  unfold run. rewrite worker_load_queue. cbn [app].
  rewrite map_app. cbn [map]. rewrite <- app_assoc. cbn [app].
  assert (H1 : Forall (fun x => Mat_empty (image x) = false)
                 (map (YpcExpected.loaded_item imread filename) before)).
  { apply Forall_map. eapply Forall_impl; [|exact Hall].
    intros a (Ha & _ & _). exact Ha. }
  rewrite (worker_process_stops_at_empty_image process_image
             (map (YpcExpected.loaded_item imread filename) before)
             (YpcExpected.loaded_item imread filename bad)
             (map (YpcExpected.loaded_item imread filename) after ++ [sentinel])
             [] blurred_bg sentinel);
    [ | exact H1 | simpl; now rewrite Hbad
      | rewrite !length_app, !length_map; simpl; lia ].
  cbn [bind_stage app].
  assert (H2 : Forall (fun x => Mat_empty (image x) = false)
                 (map (YpcExpected.processed_item process_image blurred_bg)
                    (map (YpcExpected.loaded_item imread filename) before))).
  { apply Forall_map, Forall_map. eapply Forall_impl; [|exact Hall].
    intros a (_ & Ha & _). exact Ha. }
  rewrite (worker_contour_stops_at_empty_image find_contours
             (map (YpcExpected.processed_item process_image blurred_bg)
                (map (YpcExpected.loaded_item imread filename) before))
             sentinel [] [] sentinel)
    by (auto; rewrite length_app, !length_map; simpl; lia).
  cbn [bind_stage app].
  rewrite main_loop_until_empty_name.
  - cbn [bind_stage app]. eexists. split; [reflexivity|]. cbn.
    split; [reflexivity|].
    rewrite !map_map, flat_map_concat_map, map_map, <- flat_map_concat_map.
    reflexivity.
  - apply Forall_map, Forall_map, Forall_map. eapply Forall_impl; [|exact Hall].
    intros a (_ & _ & Ha). exact Ha.
  - reflexivity.
Qed.

End YpcTruncation.

Module YpcPipelineExamples.
Import Samples.

(** Two loadable files under their own names, masks left as they are, one
    square per mask. *)
Lemma two_frames_carried :
  Forall (YpcExpected.carried disk (fun p => p) (fun img _ => img) [])
    ["a.tiff"; "b.tiff"]%string.
Proof. repeat constructor. Qed.

Lemma two_frames_delivered :
  exists o,
    Ypc.run disk (fun p => p) (fun img _ => img) (fun _ => [square]) (fun _ => 1)
      ["a.tiff"; "b.tiff"]%string []
    = Ypc.Finished o
    /\ map Ypc.result_name (Ypc.results o) = ["a.tiff"; "b.tiff"]%string.
Proof.
  destruct (pipeline_delivers_every_frame_in_order disk (fun p => p) (fun img _ => img)
              (fun _ => [square]) (fun _ => 1) _ _ two_frames_carried)
    as (o & Erun & _ & _ & Eres & _).
  exists o. split; [exact Erun|]. rewrite Eres. reflexivity.
Defined.

Lemma frame_behind_bad_is_left :
  exists o,
    Ypc.run disk (fun p => p) (fun img _ => img) (fun _ => [square]) (fun _ => 1)
      ["a.tiff"; "bad.tiff"; "b.tiff"]%string []
    = Ypc.Finished o
    /\ map Ypc.result_name (Ypc.results o) = ["a.tiff"%string]
    /\ map Ypc.name (Ypc.unprocessed o) = ["b.tiff"; ""]%string.
Proof.
  assert (Hbefore : Forall (YpcExpected.carried disk (fun p => p) (fun img _ => img) [])
                      ["a.tiff"%string]) by (repeat constructor).
  destruct (pipeline_stops_at_first_unreadable_frame disk (fun p => p)
              (fun img _ => img) (fun _ => [square]) (fun _ => 1)
              ["a.tiff"%string] ["b.tiff"%string] "bad.tiff" [] Hbefore eq_refl)
    as (o & Erun & Eun & Eres).
  exists o. split; [exact Erun|]. rewrite Eres, Eun. split; reflexivity.
Defined.

End YpcPipelineExamples.

(** ** speed.cpp: guards, selection and the two result vectors *)

Section SpeedFacts.
Context `{Imaging}.

(** speed.cpp never divides by zero or by a negative number: each of its
    four divisions runs only behind its [> 0] test, and the metric is 0
    when the test fails. *)
Theorem speed_divides_only_by_positive :
  forall (indeterminate : Speed.ContourMetrics) (contours : list Contour),
    let m := Speed.calculate_contour_metrics indeterminate contours in
    Forall (fun d => 0 < d) (Div.divisors m)
    /\ (forall c0 rest,
          contours = c0 :: rest ->
          let cnt := Std.max_element_from area_less c0 rest in
          (arcLength cnt <= 0 ->
           Speed.circularity_original (Div.value m) = 0
           /\ Speed.circularity_ratio (Div.value m) = 0)
          /\ (arcLength (convexHull cnt) <= 0 ->
              Speed.circularity_hull (Div.value m) = 0)
          /\ (contourArea cnt <= 0 -> Speed.area_ratio (Div.value m) = 0)).
Proof.
  intros indeterminate contours m. subst m.
  destruct contours as [|c0 rest].
  { split; [constructor | intros; discriminate]. }
  unfold Speed.calculate_contour_metrics.
  set (cnt := Std.max_element_from area_less c0 rest).
  set (hull := convexHull cnt).
  unfold Div.bind, Div.div, Div.ret, Div.value, Div.divisors.
  destruct (double_lt 0 (arcLength cnt)) eqn:E1;
    destruct (double_lt 0 (arcLength hull)) eqn:E2;
    destruct (double_lt 0 (contourArea cnt)) eqn:E3;
    cbn [fst snd app];
    match goal with
    | |- context [double_lt 0 ?x] => destruct (double_lt 0 x) eqn:E4
    end;
    cbn [fst snd app Speed.circularity_original Speed.circularity_ratio
         Speed.circularity_hull Speed.area_ratio];
    repeat match goal with
           | E : double_lt _ _ = true |- _ => apply double_lt_true in E
           | E : double_lt _ _ = false |- _ => apply double_lt_false in E
           end;
    (split;
     [ repeat constructor; assumption
     | intros c0' rest' Eq; injection Eq as <- <-; fold cnt hull; cbv zeta;
       repeat split; intros; try reflexivity; exfalso; lra ]).
Qed.

Section SpeedRun.
Variable imread : string -> Mat.
Variable findContours : Mat -> Mat -> list Contour.
Variable elapsed : string -> double.
Variable indeterminate : string -> Speed.ContourMetrics.
Variable background : Mat.

Let body := Speed.process_file imread findContours elapsed indeterminate background.

Lemma speed_fold_appends (l : list string) (run : Speed.Run) :
  Speed.processing_times (fold_left body l run)
  = Speed.processing_times run ++ map elapsed l
  /\ Speed.results_list (fold_left body l run)
     = Speed.results_list run
       ++ map (fun p => fst (Speed.process_image imread findContours indeterminate
                               p background)) l.
Proof.
  revert run. induction l as [|a l IH]; intros run.
  - simpl. now rewrite !app_nil_r.
  - cbn [fold_left map]. destruct (IH (body run a)) as [E1 E2]. rewrite E1, E2.
    unfold body, Speed.process_file.
    destruct (Speed.process_image imread findContours indeterminate a background)
      as [r lines].
    cbn. now rewrite <- !app_assoc.
Qed.

(** The two vectors [main] fills are aligned with [img_paths]: the i-th
    time and the i-th result belong to the i-th path, whether or not that
    path could be read, so the later loop over [i < img_paths.size()] stays
    in range. *)
Theorem speed_vectors_follow_paths :
  forall img_paths : list string,
    let run := Speed.process_all imread findContours elapsed indeterminate background
                 img_paths in
    Speed.processing_times run = map elapsed img_paths
    /\ Speed.results_list run
       = map (fun p => fst (Speed.process_image imread findContours indeterminate
                               p background)) img_paths
    /\ List.length (Speed.processing_times run) = List.length img_paths
    /\ List.length (Speed.results_list run) = List.length img_paths.
Proof.
  intros img_paths run. subst run. unfold Speed.process_all. fold body.
  destruct (speed_fold_appends img_paths Speed.Run_init) as [E1 E2].
  rewrite E1, E2. cbn [Speed.Run_init Speed.processing_times Speed.results_list app].
  rewrite !length_map. auto.
Qed.

(** For a readable image with at least one contour, [process_image]
    reports a contour that [findContours] returned, of the largest area
    among them, and [area_original] is the area of that contour. *)
Theorem speed_reports_largest_found_contour :
  forall (img_path : string) (c0 : Contour) (rest : list Contour),
    Mat_empty (imread img_path) = false ->
    findContours background (imread img_path) = c0 :: rest ->
    let m := fst (Speed.process_image imread findContours indeterminate
                    img_path background) in
    In (Speed.contour m) (c0 :: rest)
    /\ (forall c, In c (c0 :: rest) -> contourArea c <= contourArea (Speed.contour m))
    /\ Speed.area_original m = contourArea (Speed.contour m)
    /\ Speed.hull m = convexHull (Speed.contour m).
Proof.
  intros img_path c0 rest Himg Hfound m. subst m.
  unfold Speed.process_image. rewrite Himg, Hfound. cbn [Std.max_element fst].
  set (cnt := Std.max_element_from area_less c0 rest).
  assert (E : Speed.contour (Div.value (Speed.calculate_contour_metrics
                                         (indeterminate img_path) [cnt])) = cnt
              /\ Speed.area_original (Div.value (Speed.calculate_contour_metrics
                                         (indeterminate img_path) [cnt]))
                 = contourArea cnt
              /\ Speed.hull (Div.value (Speed.calculate_contour_metrics
                                         (indeterminate img_path) [cnt]))
                 = convexHull cnt).
  { unfold Speed.calculate_contour_metrics, Div.bind, Div.div, Div.ret, Div.value.
    cbn [Std.max_element_from].
    repeat match goal with
           | |- context [if ?b then _ else _] => destruct b
           end; cbn; auto. }
  destruct E as (E1 & E2 & E3). rewrite E1, E2, E3.
  split; [apply max_element_from_In|]. split; [|auto].
  destruct (max_element_from_bounds rest c0) as [H0 Hrest].
  intros c [<-|Hin]; auto.
Qed.

End SpeedRun.

End SpeedFacts.

(** ** Tbb.cpp: what one range of the loop records *)

Section TbbFacts.
Context `{Imaging}.

Variable imread : string -> Mat.
Variable findContours : Mat -> Mat -> list Contour.
Variable elapsed : string -> Z.
Variable indeterminate : string -> Tbb.ContourMetrics.
Variable background : Mat.

Let body := Tbb.loop_body imread findContours elapsed indeterminate background.

Lemma tbb_fold_appends (l : list string) (run : Tbb.Run) :
  let readable := filter (fun p => negb (Mat_empty (imread p))) l in
  Tbb.processing_times (fold_left body l run)
  = Tbb.processing_times run ++ map elapsed readable
  /\ Tbb.results (fold_left body l run)
     = Tbb.results run
       ++ map (fun p => Tbb.process_image findContours (indeterminate p)
                          (imread p) background) readable.
Proof.
  revert run. induction l as [|a l IH]; intros run.
  - simpl. now rewrite !app_nil_r.
  - cbn [fold_left filter]. destruct (IH (body run a)) as [E1 E2].
    cbv zeta. rewrite E1, E2. unfold body, Tbb.loop_body.
    destruct (Mat_empty (imread a)); cbn.
    + auto.
    + now rewrite <- !app_assoc.
Qed.

(** Within one range, Tbb.cpp records a time and a result exactly for the
    paths whose image could be read, in the order of the paths.  The two
    vectors are therefore as long as [image_paths] only when every image
    could be read; as soon as one could not, they are shorter, and the
    later loop that reads [results[i]] for every [i < image_paths.size()]
    runs past their end. *)
Theorem tbb_records_only_readable_frames :
  forall image_paths : list string,
    let run := Tbb.process_range imread findContours elapsed indeterminate background
                 image_paths in
    let readable := filter (fun p => negb (Mat_empty (imread p))) image_paths in
    Tbb.processing_times run = map elapsed readable
    /\ Tbb.results run
       = map (fun p => Tbb.process_image findContours (indeterminate p)
                         (imread p) background) readable
    /\ (List.length (Tbb.results run) <= List.length image_paths)%nat
    /\ ((exists p, In p image_paths /\ Mat_empty (imread p) = true) ->
        (List.length (Tbb.results run) < List.length image_paths)%nat).
Proof.
  intros image_paths run readable. subst run readable.
  unfold Tbb.process_range. fold body.
  destruct (tbb_fold_appends image_paths Tbb.Run_init) as [E1 E2].
  cbv zeta in E1, E2. rewrite E1, E2.
  cbn [Tbb.Run_init Tbb.processing_times Tbb.results app].
  rewrite !length_map. repeat split.
  - apply filter_length_le.
  - intros (p & Hin & Hp). clear E1 E2.
    induction image_paths as [|a l IH]; [contradiction|].
    cbn [filter List.length]. destruct Hin as [->|Hin].
    + rewrite Hp. cbn [negb].
      pose proof (filter_length_le (fun p => negb (Mat_empty (imread p))) l). lia.
    + specialize (IH Hin). destruct (negb (Mat_empty (imread a))); cbn [List.length]; lia.
Qed.

End TbbFacts.

(** ** original-thread.cpp: frames without a contour *)

Section ThreadAllFrames.
Context `{Imaging}.
Import OriginalThread.

Lemma worker_turn_any (st : Totals) (f : Frame) :
  worker_turn st f
  = let added := ThreadExpected.recorded f in
    let larger := double_lt (max_processing_time st) added in
    let n := if ThreadExpected.has_contour f then numbersum st + 1 else number st in
    {| totaltime_c := totaltime_c st + added;
       max_processing_time := if larger then added else max_processing_time st;
       max_processing_time_image :=
         if larger then filename f else max_processing_time_image st;
       numbersum := n;
       number := n |}.
Proof.
  unfold worker_turn, process_image_origin, ThreadExpected.recorded,
    ThreadExpected.has_contour.
  destruct (found f); reflexivity.
Qed.

(** In original-thread.cpp a frame without a contour is not counted, yet
    the worker adds the uninitialised [processtime] of that turn to the
    total: after a run [number] is the number of frames with a contour,
    the total is the sum of the measured times of those frames and of the
    indeterminate values of the others, and the reported average is the
    quotient of the two. *)
Theorem thread_counts_only_frames_with_contour :
  forall frames : list Frame,
    let st := fold_left worker_turn frames Totals_init in
    number st = INR (List.length (filter ThreadExpected.has_contour frames))
    /\ numbersum st = number st
    /\ totaltime_c st = sum (map ThreadExpected.recorded frames)
    /\ fst (fst (thread_main frames))
       = sum (map ThreadExpected.recorded frames)
         / INR (List.length (filter ThreadExpected.has_contour frames)).
Proof.
  intros frames.
  assert (G : let st := fold_left worker_turn frames Totals_init in
              number st = INR (List.length (filter ThreadExpected.has_contour frames))
              /\ numbersum st = number st
              /\ totaltime_c st = sum (map ThreadExpected.recorded frames)).
  { induction frames as [|f frames IH] using rev_ind.
    - simpl. repeat split; lra.
    - cbv zeta in *. rewrite fold_left_app. cbn [fold_left].
      destruct IH as (En & Es & Et).
      rewrite worker_turn_any. cbn.
      rewrite filter_app, length_app, plus_INR, map_app, sum_app. cbn [filter map].
      destruct (ThreadExpected.has_contour f); cbn; rewrite ?Es, ?En, ?Et.
      + repeat split; lra.
      + repeat split; lra. }
  cbv zeta in *. destruct G as (En & Es & Et).
  repeat split; auto.
  unfold thread_main. cbn [fst]. now rewrite Et, En.
Qed.

(** The maximum and its file name are replaced in the same step, so after
    any run the stored name is that of a frame whose recorded time is
    exactly the stored maximum, unless no recorded time exceeded 0 and both
    are as initialised; and no recorded time exceeds the stored maximum. *)
Theorem thread_maximum_keeps_its_file_name :
  forall frames : list Frame,
    let st := fold_left worker_turn frames Totals_init in
    (forall g, In g frames -> ThreadExpected.recorded g <= max_processing_time st)
    /\ ((max_processing_time st = 0 /\ max_processing_time_image st = EmptyString)
        \/ exists f, In f frames
                     /\ ThreadExpected.recorded f = max_processing_time st
                     /\ filename f = max_processing_time_image st).
Proof.
  intros frames.
  induction frames as [|f frames IH] using rev_ind.
  - simpl. split; [tauto | now left].
  - cbv zeta in *. rewrite fold_left_app. cbn [fold_left].
    set (st := fold_left worker_turn frames Totals_init) in *.
    destruct IH as (Hmax & Hid).
    rewrite worker_turn_any. cbn.
    destruct (double_lt (max_processing_time st) (ThreadExpected.recorded f)) eqn:E.
    + apply double_lt_true in E. split.
      * intros g Hg. apply in_app_or in Hg. destruct Hg as [Hg|[<-|[]]].
        -- specialize (Hmax g Hg). lra.
        -- lra.
      * right. exists f. split; [apply in_or_app; right; now left | auto].
    + apply double_lt_false in E. split.
      * intros g Hg. apply in_app_or in Hg. destruct Hg as [Hg|[<-|[]]]; auto.
      * destruct Hid as [Hz|(f1 & Hin & E1 & E2)]; [now left|].
        right. exists f1. split; [apply in_or_app; now left | auto].
Qed.

End ThreadAllFrames.

(** ** crop_canny.cpp: contours that touch the border *)

Section CropCannyFacts.
Context `{Imaging}.
Import CropCanny.

(** For a size whose members are [int] values above [INT_MIN], so that
    the two subtractions do not wrap, [is_contour_complete] holds exactly
    when every point lies strictly inside the outermost ring of pixels; so
    the empty contour is complete, and in an image of fewer than three
    columns or rows no other contour is. *)
Theorem contour_complete_iff_strictly_inside :
  forall (contour : Contour) (image_size : Size),
    (- 2147483648 < width image_size <= 2147483647)%Z ->
    (- 2147483648 < height image_size <= 2147483647)%Z ->
    (is_contour_complete contour image_size = true
     <-> Forall (fun p => (0 < fst p < width image_size - 1
                           /\ 0 < snd p < height image_size - 1)%Z) contour)
    /\ ((width image_size <= 2 \/ height image_size <= 2)%Z ->
        is_contour_complete contour image_size = true -> contour = []).
Proof.
  intros contour image_size Hw Hh.
  assert (Hiff : is_contour_complete contour image_size = true
                 <-> Forall (fun p => (0 < fst p < width image_size - 1
                                       /\ 0 < snd p < height image_size - 1)%Z) contour).
  { induction contour as [|p contour IH]; cbn [is_contour_complete].
    - split; [constructor | reflexivity].
    - rewrite (wrap_int_small (width image_size - 1)) by lia.
      rewrite (wrap_int_small (height image_size - 1)) by lia.
      destruct ((fst p <=? 0)%Z || (snd p <=? 0)%Z
                || (fst p >=? width image_size - 1)%Z
                || (snd p >=? height image_size - 1)%Z) eqn:E.
      + split; [discriminate|]. intros Hall. apply Forall_inv in Hall.
        rewrite !orb_true_iff in E.
        rewrite !Z.leb_le, !Z.geb_le in E. lia.
      + rewrite !orb_false_iff in E. destruct E as [[[E1 E2] E3] E4].
        apply Z.leb_gt in E1, E2.
        rewrite Z.geb_leb in E3, E4. apply Z.leb_gt in E3, E4.
        rewrite IH. split.
        * intros Hall. constructor; [lia | exact Hall].
        * intros Hall. now apply Forall_inv_tail in Hall. }
  split; [exact Hiff|].
  intros Hsmall Hc. apply Hiff in Hc.
  destruct contour as [|p contour]; [reflexivity|].
  apply Forall_inv in Hc. lia.
Qed.

Variable imread : string -> Mat.
Variable findContours : bool -> Mat -> Mat -> list Contour.
Variable indeterminate : string -> ContourMetrics.

Lemma process_image_accepts (storage : ContourMetrics) (img background : Mat)
    (use_canny : bool) :
  contour_empty (process_image findContours storage img background use_canny) = false ->
  exists c,
    findContours use_canny background img = [c]
    /\ is_contour_complete c (Mat_size img) = true
    /\ Speed.contour (process_image findContours storage img background use_canny) = c.
Proof.
  unfold process_image.
  destruct (findContours use_canny background img) as [|c0 [|c1 rest]] eqn:E.
  - discriminate.
  - cbn [List.length Nat.ltb Nat.leb orb].
    destruct (is_contour_complete c0 (Mat_size img)) eqn:Hc; cbn [negb].
    + intros _. exists c0. repeat split; auto.
    + discriminate.
  - cbn [List.length Nat.ltb Nat.leb orb]. discriminate.
Qed.

(** [process_and_compare] prints and draws a comparison only for an image
    that loads and in which the run with Canny and the run without it each
    find exactly one contour, away from the border; the contours it draws
    are these two.  Every other image ends with the error or the
    "Skipping" line. *)
Theorem comparison_needs_one_complete_contour_each :
  forall (img_path : string) (background : Mat)
         (results_with_canny results_without_canny : ContourMetrics),
    process_and_compare imread findContours indeterminate img_path background
    = Compared results_with_canny results_without_canny ->
    Mat_empty (imread img_path) = false
    /\ (exists c,
          findContours true background (imread img_path) = [c]
          /\ is_contour_complete c (Mat_size (imread img_path)) = true
          /\ Speed.contour results_with_canny = c)
    /\ (exists c,
          findContours false background (imread img_path) = [c]
          /\ is_contour_complete c (Mat_size (imread img_path)) = true
          /\ Speed.contour results_without_canny = c).
Proof.
  intros img_path background rw rwo. unfold process_and_compare.
  destruct (Mat_empty (imread img_path)) eqn:Himg; [discriminate|].
  destruct (contour_empty (process_image findContours (indeterminate img_path)
                             (imread img_path) background true)) eqn:E1; [discriminate|].
  destruct (contour_empty (process_image findContours (indeterminate img_path)
                             (imread img_path) background false)) eqn:E2; [discriminate|].
  intros Eq. injection Eq as <- <-.
  split; [reflexivity|]. split; now apply process_image_accepts.
Qed.

End CropCannyFacts.

(** ** minrectangle-CUDA.cpp: the padded bounding box and the totals *)

Section MinRectFacts.
Context `{Imaging}.
Import MinRect.

(** The padded box never leaves the image and never loses a part of the
    box it was grown from, so [binary(bounding_box)] is a valid region;
    it starts at most 10 pixels before the box and is at most 20 pixels
    wider and higher. *)
Theorem padded_box_stays_inside_image :
  forall (bounding_box : Rect) (cols rows : Z),
    inside bounding_box cols rows ->
    (cols < 2147483628)%Z -> (rows < 2147483628)%Z ->
    let padded := pad_bounding_box bounding_box cols rows in
    inside padded cols rows
    /\ covers padded bounding_box
    /\ (x bounding_box - 10 <= x padded /\ y bounding_box - 10 <= y padded)%Z
    /\ (width padded <= width bounding_box + 20
        /\ height padded <= height bounding_box + 20)%Z.
Proof.
  intros bb cols rows (Hx & Hw & Hxw & Hy & Hh & Hyh) Hc Hr padded.
  subst padded. unfold pad_bounding_box, padding, inside, covers.
  cbn [x y width height].
  rewrite (wrap_int_small (x bb - 10)) by lia.
  rewrite (wrap_int_small (y bb - 10)) by lia.
  rewrite (wrap_int_small (2 * 10)) by lia.
  rewrite (wrap_int_small (width bb + 2 * 10)) by lia.
  rewrite (wrap_int_small (height bb + 2 * 10)) by lia.
  rewrite (wrap_int_small (cols - Z.max 0 (x bb - 10))) by lia.
  rewrite (wrap_int_small (rows - Z.max 0 (y bb - 10))) by lia.
  lia.
Qed.

Lemma main_turn_any (st : Totals) (f : Frame) :
  main_turn st f
  = {| averagetime_c := averagetime_c st + recorded f;
       number := number st + 1;
       max_processtime_c :=
         if double_lt (max_processtime_c st) (recorded f) then recorded f
         else max_processtime_c st |}.
Proof.
  unfold main_turn, process_image_cropped, recorded, measured.
  destruct (Mat_empty (image f)); [reflexivity|].
  destruct (contoursbi f) as [|c0 [|c1 rest]]; try reflexivity.
  cbn [List.length Nat.ltb Nat.leb negb andb].
  destruct (edge_contours f _); reflexivity.
Qed.

(** [main] counts every file of the directory, also those for which
    [process_image_cropped] returned early (unreadable image, no contour
    or more than one in the binary image, no contour on the edges of the
    crop); for these it adds the uninitialised [processtime_c].  After the
    loop [number] is the number of files and the time total is the sum of
    the measured times and of those indeterminate values. *)
Theorem every_file_is_counted_and_timed :
  forall frames : list Frame,
    let st := fold_left main_turn frames Totals_init in
    number st = INR (List.length frames)
    /\ averagetime_c st = sum (map recorded frames)
    /\ (forall g, In g frames -> recorded g <= max_processtime_c st)
    /\ (forall f contours metrics duration,
          measured f = false ->
          snd (process_image_cropped f contours metrics duration) = duration).
Proof.
  intros frames.
  assert (G : let st := fold_left main_turn frames Totals_init in
              number st = INR (List.length frames)
              /\ averagetime_c st = sum (map recorded frames)
              /\ (forall g, In g frames -> recorded g <= max_processtime_c st)).
  { induction frames as [|f frames IH] using rev_ind.
    - simpl. repeat split; try lra. tauto.
    - cbv zeta in *. rewrite fold_left_app. cbn [fold_left].
      destruct IH as (En & Et & Hmax).
      rewrite main_turn_any. cbn.
      rewrite length_app, plus_INR, map_app, sum_app. cbn.
      split; [lra|]. split; [lra|].
      intros g Hg. apply in_app_or in Hg.
      destruct (double_lt _ _) eqn:E.
      + apply double_lt_true in E. destruct Hg as [Hg|[<-|[]]]; [|lra].
        specialize (Hmax g Hg). lra.
      + apply double_lt_false in E. destruct Hg as [Hg|[<-|[]]]; auto. }
  cbv zeta in *. destruct G as (En & Et & Hmax).
  repeat split; auto.
  intros f contours metrics duration Hm.
  unfold process_image_cropped. unfold measured in Hm.
  destruct (Mat_empty (image f)); [reflexivity|].
  destruct (contoursbi f) as [|c0 [|c1 rest]]; try reflexivity.
  cbn [List.length Nat.ltb Nat.leb negb andb] in *.
  destruct (edge_contours f _); [reflexivity | discriminate].
Qed.

End MinRectFacts.

(** ** edp.cpp: erosion and dilation *)

Section EdpFacts.
Import Edp.
Local Open Scope Z_scope.

Lemma range_In (first last k : Z) :
  In k (range first last) <-> first <= k <= last.
Proof.
  unfold range. rewrite in_map_iff. split.
  - intros (n & <- & Hn). apply in_seq in Hn. lia.
  - intros Hk. exists (Z.to_nat (k - first)). split; [lia|].
    apply in_seq. lia.
Qed.

Lemma offsets_In (r ki kj : Z) :
  In (ki, kj) (offsets r) <-> (- r <= ki <= r) /\ (- r <= kj <= r).
Proof.
  unfold offsets. rewrite in_flat_map. split.
  - intros (k & Hk & Hin). apply in_map_iff in Hin.
    destruct Hin as (k' & E & Hk'). inversion E; subst.
    apply range_In in Hk, Hk'. auto.
  - intros (Hi & Hj). exists ki. split; [apply range_In; auto|].
    apply in_map. apply range_In; auto.
Qed.

Lemma fold_left_flat_map {A B C : Type} (g : A -> C -> A) (h : B -> list C)
      (l : list B) (a : A) :
  fold_left g (flat_map h l) a = fold_left (fun a x => fold_left g (h x) a) l a.
Proof.
  revert a. induction l as [|x l IH]; intros a; [reflexivity|].
  cbn [flat_map fold_left]. rewrite fold_left_app. apply IH.
Qed.

Lemma fold_left_of_map {A B C : Type} (g : A -> C -> A) (f : B -> C)
      (l : list B) (a : A) :
  fold_left g (map f l) a = fold_left (fun a x => g a (f x)) l a.
Proof.
  revert a. induction l as [|x l IH]; intros a; [reflexivity|]. apply IH.
Qed.

Lemma fold_left_pointwise {A B : Type} (f g : A -> B -> A) (l : list B) (a : A) :
  (forall a x, f a x = g a x) -> fold_left f l a = fold_left g l a.
Proof.
  intros E. revert a. induction l as [|x l IH]; intros a; [reflexivity|].
  cbn [fold_left]. rewrite E. apply IH.
Qed.


Section Pass.
Variables (skip : Z * Z -> bool) (value : Z * Z -> Z).

Lemma pass_cons op k l start :
  pass op skip value (k :: l) start
  = pass op skip value l (if skip k then start else op start (value k)).
Proof. reflexivity. Qed.

Lemma lowest_le_start l start : pass Z.min skip value l start <= start.
Proof.
  revert start. induction l as [|k l IH]; intros start; [unfold pass; cbn; lia|].
  rewrite pass_cons.
  specialize (IH (if skip k then start else Z.min start (value k))).
  destruct (skip k); lia.
Qed.

Lemma lowest_le_each l start k :
  In k l -> skip k = false -> pass Z.min skip value l start <= value k.
Proof.
  revert start. induction l as [|k' l IH]; intros start; [intros []|].
  intros [->|Hin] Hset; rewrite pass_cons.
  - rewrite Hset. pose proof (lowest_le_start l (Z.min start (value k))). lia.
  - apply IH; assumption.
Qed.

Lemma lowest_attained l start :
  pass Z.min skip value l start = start
  \/ exists k, In k l /\ skip k = false /\ pass Z.min skip value l start = value k.
Proof.
  revert start. induction l as [|k l IH]; intros start; [left; reflexivity|].
  rewrite pass_cons.
  destruct (IH (if skip k then start else Z.min start (value k)))
    as [E|(k' & Hin & Hset & E)].
  - destruct (skip k) eqn:Hk; [left; exact E|].
    destruct (Z.min_spec start (value k)) as [[_ Em]|[_ Em]]; rewrite Em in E |- *.
    + left; exact E.
    + right. exists k. repeat split; auto. left; reflexivity.
  - right. exists k'. repeat split; auto. right; exact Hin.
Qed.

Lemma highest_ge_start l start : start <= pass Z.max skip value l start.
Proof.
  revert start. induction l as [|k l IH]; intros start; [unfold pass; cbn; lia|].
  rewrite pass_cons.
  specialize (IH (if skip k then start else Z.max start (value k))).
  destruct (skip k); lia.
Qed.

Lemma highest_ge_each l start k :
  In k l -> skip k = false -> value k <= pass Z.max skip value l start.
Proof.
  revert start. induction l as [|k' l IH]; intros start; [intros []|].
  intros [->|Hin] Hset; rewrite pass_cons.
  - rewrite Hset. pose proof (highest_ge_start l (Z.max start (value k))). lia.
  - apply IH; assumption.
Qed.

Lemma highest_attained l start :
  pass Z.max skip value l start = start
  \/ exists k, In k l /\ skip k = false /\ pass Z.max skip value l start = value k.
Proof.
  revert start. induction l as [|k l IH]; intros start; [left; reflexivity|].
  rewrite pass_cons.
  destruct (IH (if skip k then start else Z.max start (value k)))
    as [E|(k' & Hin & Hset & E)].
  - destruct (skip k) eqn:Hk; [left; exact E|].
    destruct (Z.max_spec start (value k)) as [[_ Em]|[_ Em]]; rewrite Em in E |- *.
    + right. exists k. repeat split; auto. left; reflexivity.
    + left; exact E.
  - right. exists k'. repeat split; auto. right; exact Hin.
Qed.

End Pass.

Lemma min_under_pass (src kernel : Mat) (r i j : Z) :
  min_under src kernel r i j
  = pass Z.min (fun k => at_ kernel (fst k + r) (snd k + r) =? 0)
         (fun k => at_ src (i + fst k) (j + snd k)) (offsets r) 255.
Proof.
  unfold min_under, pass, offsets. rewrite fold_left_flat_map.
  apply fold_left_pointwise. intros a ki.
  rewrite fold_left_of_map. reflexivity.
Qed.

Lemma max_under_pass (src kernel : Mat) (r i j : Z) :
  max_under src kernel r i j
  = pass Z.max (fun k => at_ kernel (fst k + r) (snd k + r) =? 0)
         (fun k => at_ src (i + fst k) (j + snd k)) (offsets r) 0.
Proof.
  unfold max_under, pass, offsets. rewrite fold_left_flat_map.
  apply fold_left_pointwise. intros a ki.
  rewrite fold_left_of_map. reflexivity.
Qed.

Lemma at_in_range (m : Mat) (i j : Z) :
  pixels_in_range m -> 0 <= at_ m i j <= 255.
Proof.
  intros Hm. unfold at_.
  assert (Hrow : Forall (fun v => 0 <= v <= 255) (nth (Z.to_nat i) m [])).
  { destruct (nth_in_or_default (Z.to_nat i) m []) as [Hin | ->]; [|constructor].
    unfold pixels_in_range in Hm. rewrite Forall_forall in Hm. auto. }
  destruct (nth_in_or_default (Z.to_nat j) (nth (Z.to_nat i) m []) 0) as [Hin | ->]; [|lia].
  rewrite Forall_forall in Hrow. auto.
Qed.

Lemma min_under_in_range (src kernel : Mat) (r i j : Z) :
  pixels_in_range src -> 0 <= min_under src kernel r i j <= 255.
Proof.
  intros Hsrc. rewrite min_under_pass. split; [|apply lowest_le_start].
  match goal with |- _ <= pass _ ?s ?v ?l ?a =>
    destruct (lowest_attained s v l a) as [-> | (k & _ & _ & ->)] end; [lia|].
  apply at_in_range; assumption.
Qed.

Lemma max_under_in_range (src kernel : Mat) (r i j : Z) :
  pixels_in_range src -> 0 <= max_under src kernel r i j <= 255.
Proof.
  intros Hsrc. rewrite max_under_pass. split; [apply highest_ge_start|].
  match goal with |- pass _ ?s ?v ?l ?a <= _ =>
    destruct (highest_attained s v l a) as [-> | (k & _ & _ & ->)] end; [lia|].
  apply at_in_range; assumption.
Qed.

(** *** The image the outer loops leave in [dst] *)

Lemma rows_filtered value src r : rows (filtered value src r) = rows src.
Proof.
  unfold rows. unfold filtered. rewrite length_map, length_seq. unfold rows. lia.
Qed.

Lemma filtered_rows_length value src r :
  Forall (fun row => List.length row = Z.to_nat (cols src)) (filtered value src r).
Proof.
  unfold filtered. apply Forall_forall. intros row Hin.
  apply in_map_iff in Hin. destruct Hin as (i & <- & _).
  rewrite length_map, length_seq. reflexivity.
Qed.

Lemma cols_filtered value src r :
  rectangular src -> cols (filtered value src r) = cols src.
Proof.
  intros _. pose proof (filtered_rows_length value src r) as Hlen.
  unfold cols at 1. destruct (filtered value src r) as [|row dst] eqn:E.
  - unfold filtered in E. apply map_eq_nil in E.
    destruct src as [|row0 src]; [reflexivity|].
    unfold rows in E. cbn [List.length] in E.
    rewrite Nat2Z.id in E. discriminate.
  - inversion Hlen; subst. cbn [hd]. unfold cols in *. lia.
Qed.

Lemma filtered_rectangular value src r : rectangular (filtered value src r).
Proof.
  pose proof (filtered_rows_length value src r) as Hlen.
  unfold rectangular. destruct (filtered value src r) as [|row dst]; [constructor|].
  cbn [hd]. inversion Hlen; subst.
  apply Forall_forall. intros row' Hin. rewrite Forall_forall in Hlen.
  rewrite (Hlen row' Hin). symmetry. apply Hlen. left; reflexivity.
Qed.

Lemma filtered_in_range value src r :
  (forall i j, 0 <= value i j <= 255) -> pixels_in_range (filtered value src r).
Proof.
  intros Hv. unfold pixels_in_range, filtered.
  apply Forall_forall. intros row Hin. apply in_map_iff in Hin.
  destruct Hin as (i & <- & _).
  apply Forall_forall. intros v Hin. apply in_map_iff in Hin.
  destruct Hin as (j & <- & _).
  destruct (interior _ _ _ _); [apply Hv | lia].
Qed.

Lemma nth_map_seq {A : Type} (f : nat -> A) (n k : nat) (d : A) :
  (k < n)%nat -> nth k (map f (seq 0 n)) d = f k.
Proof.
  intros Hk. rewrite (nth_indep _ d (f 0%nat)) by (rewrite length_map, length_seq; lia).
  rewrite map_nth, seq_nth by lia. reflexivity.
Qed.

Lemma at_filtered value src r i j :
  0 <= i < rows src -> 0 <= j < cols src ->
  at_ (filtered value src r) i j = if interior src r i j then value i j else 0.
Proof.
  intros Hi Hj. unfold at_, filtered.
  rewrite nth_map_seq by lia. rewrite nth_map_seq by lia.
  rewrite !Z2Nat.id by lia. reflexivity.
Qed.

Lemma interior_spec src r i j :
  interior src r i j = true
  <-> (r <= i < rows src - r) /\ (r <= j < cols src - r).
Proof.
  unfold interior. rewrite !andb_true_iff, !Z.leb_le, !Z.ltb_lt. lia.
Qed.

Lemma radius_nonneg (kernel : Mat) : 0 <= rows kernel / 2.
Proof. unfold rows. apply Z.div_pos; lia. Qed.

Lemma kernel_entry_set (kernel : Mat) (r ki kj : Z) :
  (at_ kernel (ki + r) (kj + r) =? 0) = false <-> at_ kernel (ki + r) (kj + r) <> 0.
Proof. apply Z.eqb_neq. Qed.

(** [parallelErode]: [dst] has the size of [src] and [uchar] pixels; the
    pixels nearer than the kernel radius to the border stay 0; every
    other pixel is the minimum of [src] under the set entries of the
    kernel (255 when no value under the kernel is lower or no entry is
    set); with the centre of the kernel set, no pixel of [dst] is above
    the pixel of [src] at its place. *)
Theorem erode_is_minimum_under_kernel :
  forall src kernel : Mat,
    image src -> structuring kernel ->
    let r := rows kernel / 2 in
    let dst := parallelErode src kernel in
    image dst /\ rows dst = rows src /\ cols dst = cols src
    /\ (forall i j, 0 <= i < rows src -> 0 <= j < cols src ->
          ~ (r <= i < rows src - r /\ r <= j < cols src - r) ->
          at_ dst i j = 0)
    /\ (forall i j, r <= i < rows src - r -> r <= j < cols src - r ->
          (forall ki kj, - r <= ki <= r -> - r <= kj <= r ->
             at_ kernel (ki + r) (kj + r) <> 0 ->
             at_ dst i j <= at_ src (i + ki) (j + kj))
          /\ (at_ dst i j = 255
              \/ exists ki kj,
                   - r <= ki <= r /\ - r <= kj <= r
                   /\ at_ kernel (ki + r) (kj + r) <> 0
                   /\ at_ dst i j = at_ src (i + ki) (j + kj)))
    /\ (centred kernel ->
        forall i j, 0 <= i < rows src -> 0 <= j < cols src ->
          at_ dst i j <= at_ src i j).
Proof.
  intros src kernel [Hrect Hpix] _ r dst.
  pose proof (radius_nonneg kernel) as Hr. fold r in Hr.
  assert (Hborder : forall i j, 0 <= i < rows src -> 0 <= j < cols src ->
            ~ (r <= i < rows src - r /\ r <= j < cols src - r) -> at_ dst i j = 0).
  { intros i j Hi Hj Hout. subst dst. unfold parallelErode. fold r.
    rewrite at_filtered by assumption.
    destruct (interior src r i j) eqn:E; [|reflexivity].
    apply interior_spec in E. contradiction. }
  assert (Hlow : forall i j, r <= i < rows src - r -> r <= j < cols src - r ->
            forall ki kj, - r <= ki <= r -> - r <= kj <= r ->
              at_ kernel (ki + r) (kj + r) <> 0 ->
              at_ dst i j <= at_ src (i + ki) (j + kj)).
  { intros i j Hi Hj ki kj Hki Hkj Hset. subst dst. unfold parallelErode. fold r.
    rewrite at_filtered by lia.
    replace (interior src r i j) with true
      by (symmetry; apply interior_spec; auto).
    rewrite min_under_pass.
    apply (lowest_le_each _ (fun k => at_ src (i + fst k) (j + snd k)) _ _ (ki, kj)).
    - apply offsets_In; auto.
    - apply kernel_entry_set; exact Hset. }
  split; [split|]; [apply filtered_rectangular| |].
  { apply filtered_in_range. intros i j. apply min_under_in_range; assumption. }
  split; [apply rows_filtered|]. split; [apply cols_filtered; assumption|].
  split; [exact Hborder|]. split.
  - intros i j Hi Hj. split; [apply Hlow; assumption|].
    subst dst. unfold parallelErode. fold r. rewrite at_filtered by lia.
    replace (interior src r i j) with true
      by (symmetry; apply interior_spec; auto).
    rewrite min_under_pass.
    match goal with |- pass _ ?s ?v ?l ?a = _ \/ _ =>
      destruct (lowest_attained s v l a) as [E | ([ki kj] & Hin & Hset & E)] end.
    + left; exact E.
    + right. exists ki, kj. apply offsets_In in Hin. destruct Hin as [Hki Hkj].
      cbn [fst snd] in *. apply kernel_entry_set in Hset. auto.
  - intros Hcentre i j Hi Hj.
    destruct (interior src r i j) eqn:E.
    + apply interior_spec in E. destruct E as [Ei Ej].
      replace (at_ src i j) with (at_ src (i + 0) (j + 0)) by (f_equal; lia).
      apply Hlow; first [exact Hcentre | lia].
    + rewrite Hborder; auto.
      * apply at_in_range; assumption.
      * intros Hin. apply interior_spec in Hin. congruence.
Qed.

(** [parallelDilate]: the same size and border; every other pixel is the
    maximum of [src] under the set entries of the kernel (0 when no entry
    is set); with the centre of the kernel set, the pixels away from the
    border are not below the pixel of [src] at their place, while a set
    pixel of [src] on the border is lost. *)
Theorem dilate_is_maximum_under_kernel :
  forall src kernel : Mat,
    image src -> structuring kernel ->
    let r := rows kernel / 2 in
    let dst := parallelDilate src kernel in
    image dst /\ rows dst = rows src /\ cols dst = cols src
    /\ (forall i j, 0 <= i < rows src -> 0 <= j < cols src ->
          ~ (r <= i < rows src - r /\ r <= j < cols src - r) ->
          at_ dst i j = 0)
    /\ (forall i j, r <= i < rows src - r -> r <= j < cols src - r ->
          (forall ki kj, - r <= ki <= r -> - r <= kj <= r ->
             at_ kernel (ki + r) (kj + r) <> 0 ->
             at_ src (i + ki) (j + kj) <= at_ dst i j)
          /\ (at_ dst i j = 0
              \/ exists ki kj,
                   - r <= ki <= r /\ - r <= kj <= r
                   /\ at_ kernel (ki + r) (kj + r) <> 0
                   /\ at_ dst i j = at_ src (i + ki) (j + kj)))
    /\ (centred kernel ->
        forall i j, r <= i < rows src - r -> r <= j < cols src - r ->
          at_ src i j <= at_ dst i j).
Proof.
  intros src kernel [Hrect Hpix] _ r dst.
  pose proof (radius_nonneg kernel) as Hr. fold r in Hr.
  assert (Hhigh : forall i j, r <= i < rows src - r -> r <= j < cols src - r ->
            forall ki kj, - r <= ki <= r -> - r <= kj <= r ->
              at_ kernel (ki + r) (kj + r) <> 0 ->
              at_ src (i + ki) (j + kj) <= at_ dst i j).
  { intros i j Hi Hj ki kj Hki Hkj Hset. subst dst. unfold parallelDilate. fold r.
    rewrite at_filtered by lia.
    replace (interior src r i j) with true
      by (symmetry; apply interior_spec; auto).
    rewrite max_under_pass.
    apply (highest_ge_each _ (fun k => at_ src (i + fst k) (j + snd k)) _ _ (ki, kj)).
    - apply offsets_In; auto.
    - apply kernel_entry_set; exact Hset. }
  split; [split|]; [apply filtered_rectangular| |].
  { apply filtered_in_range. intros i j. apply max_under_in_range; assumption. }
  split; [apply rows_filtered|]. split; [apply cols_filtered; assumption|].
  split; [|split].
  - intros i j Hi Hj Hout. subst dst. unfold parallelDilate. fold r.
    rewrite at_filtered by assumption.
    destruct (interior src r i j) eqn:E; [|reflexivity].
    apply interior_spec in E. contradiction.
  - intros i j Hi Hj. split; [apply Hhigh; assumption|].
    subst dst. unfold parallelDilate. fold r. rewrite at_filtered by lia.
    replace (interior src r i j) with true
      by (symmetry; apply interior_spec; auto).
    rewrite max_under_pass.
    match goal with |- pass _ ?s ?v ?l ?a = _ \/ _ =>
      destruct (highest_attained s v l a) as [E | ([ki kj] & Hin & Hset & E)] end.
    + left; exact E.
    + right. exists ki, kj. apply offsets_In in Hin. destruct Hin as [Hki Hkj].
      cbn [fst snd] in *. apply kernel_entry_set in Hset. auto.
  - intros Hcentre i j Hi Hj.
    replace (at_ src i j) with (at_ src (i + 0) (j + 0)) by (f_equal; lia).
    apply Hhigh; first [exact Hcentre | lia].
Qed.

(** [process_image] of edp.cpp erodes and then dilates with the same
    kernel.  With a kernel whose set entries are symmetric about the
    centre the result is nowhere above the image it started from: the
    two loops remove set pixels and never add one. *)
Theorem opening_never_brightens :
  forall src kernel : Mat,
    image src -> structuring kernel -> symmetric kernel ->
    let opened := parallelDilate (parallelErode src kernel) kernel in
    rows opened = rows src /\ cols opened = cols src
    /\ forall i j, 0 <= i < rows src -> 0 <= j < cols src ->
         0 <= at_ opened i j <= at_ src i j.
Proof.
  intros src kernel [Hrect Hpix] _ Hsym opened.
  pose proof (radius_nonneg kernel) as Hr.
  unfold symmetric in Hsym. cbv zeta in Hsym.
  subst opened. unfold parallelDilate, parallelErode.
  set (r := rows kernel / 2) in *.
  set (eroded := filtered (min_under src kernel r) src r).
  assert (Erows : rows eroded = rows src) by apply rows_filtered.
  assert (Ecols : cols eroded = cols src) by (apply cols_filtered; assumption).
  assert (Hero : pixels_in_range eroded).
  { apply filtered_in_range. intros i j. apply min_under_in_range; assumption. }
  split; [rewrite rows_filtered; exact Erows|].
  split; [rewrite cols_filtered by apply filtered_rectangular; exact Ecols|].
  intros i j Hi Hj.
  split.
  { apply at_in_range. apply filtered_in_range.
    intros i' j'. apply max_under_in_range; assumption. }
  pose proof (at_in_range src i j Hpix) as Hsrc.
  rewrite at_filtered by lia.
  destruct (interior eroded r i j) eqn:E; [|lia].
  apply interior_spec in E. rewrite Erows, Ecols in E. destruct E as [Ei Ej].
  rewrite max_under_pass.
  match goal with |- pass _ ?s ?v ?l ?a <= _ =>
    destruct (highest_attained s v l a) as [-> | ([ki kj] & Hin & Hset & ->)] end;
    [lia|].
  apply offsets_In in Hin. destruct Hin as [Hki Hkj].
  cbn [fst snd] in *. apply kernel_entry_set in Hset.
  subst eroded. rewrite at_filtered by lia.
  destruct (interior src r (i + ki) (j + kj)) eqn:E; [|lia].
  rewrite min_under_pass.
  replace (at_ src i j) with (at_ src (i + ki + fst (- ki, - kj)) (j + kj + snd (- ki, - kj)))
    by (cbn [fst snd]; f_equal; lia).
  apply (lowest_le_each _ (fun k => at_ src (i + ki + fst k) (j + kj + snd k))).
  - apply offsets_In. lia.
  - cbn [fst snd]. apply kernel_entry_set. apply Hsym; auto.
Qed.

End EdpFacts.

Module EdpExamples.
Import Edp.
Local Open Scope Z_scope.

Lemma plus5_is_image : image plus5.
Proof. split; repeat constructor; lia. Qed.

Lemma cross3_is_structuring : structuring cross3.
Proof. split; repeat constructor. Qed.

Lemma cross3_is_centred : centred cross3.
Proof. unfold centred. cbn. discriminate. Qed.

Lemma cross3_is_symmetric : symmetric cross3.
Proof.
  unfold symmetric. cbv zeta. change (rows cross3 / 2) with 1.
  intros ki kj Hi Hj.
  assert (Ei : ki = -1 \/ ki = 0 \/ ki = 1) by lia.
  assert (Ej : kj = -1 \/ kj = 0 \/ kj = 1) by lia.
  destruct Ei as [-> | [-> | ->]], Ej as [-> | [-> | ->]]; cbn; auto.
Qed.

(** The plus keeps its centre and loses its arms; the corner pixel, on
    the border, is cleared. *)
Lemma plus5_eroded :
  rows (parallelErode plus5 cross3) = 5
  /\ at_ (parallelErode plus5 cross3) 0 0 = 0
  /\ at_ (parallelErode plus5 cross3) 2 2 <= at_ plus5 2 3.
Proof.
  destruct (erode_is_minimum_under_kernel plus5 cross3 plus5_is_image
              cross3_is_structuring)
    as (_ & Erows & _ & Hborder & Hinner & _).
  split; [exact Erows|]. split.
  - apply Hborder; cbn; lia.
  - apply (proj1 (Hinner 2 2 ltac:(cbn; lia) ltac:(cbn; lia)) 0 1);
      cbn; first [lia | discriminate].
Defined.

(** The corner pixel of the plus image is set and on the border: the
    dilated image has 0 there, and the arm at (1, 2) reaches (1, 1). *)
Lemma plus5_dilated :
  at_ plus5 0 0 = 255
  /\ at_ (parallelDilate plus5 cross3) 0 0 = 0
  /\ at_ plus5 1 2 <= at_ (parallelDilate plus5 cross3) 1 1.
Proof.
  destruct (dilate_is_maximum_under_kernel plus5 cross3 plus5_is_image
              cross3_is_structuring)
    as (_ & _ & _ & Hborder & Hinner & _).
  split; [reflexivity|]. split.
  - apply Hborder; cbn; lia.
  - apply (proj1 (Hinner 1 1 ltac:(cbn; lia) ltac:(cbn; lia)) 0 1);
      cbn; first [lia | discriminate].
Defined.

Lemma plus5_opened :
  rows (parallelDilate (parallelErode plus5 cross3) cross3) = 5
  /\ 0 <= at_ (parallelDilate (parallelErode plus5 cross3) cross3) 2 2
          <= at_ plus5 2 2.
Proof.
  destruct (opening_never_brightens plus5 cross3 plus5_is_image
              cross3_is_structuring cross3_is_symmetric)
    as (Erows & _ & Hle).
  split; [exact Erows|].
  apply (Hle 2 2); cbn; lia.
Defined.

End EdpExamples.

(** ** cannytest.cpp: the contours are the connected components *)

Section CannyTestFacts.
Import CannyTest.
Local Open Scope Z_scope.

(** *** Writing into a vector *)

Lemma length_assign {A : Type} (l : list A) (n : nat) (a : A) :
  List.length (assign l n a) = List.length l.
Proof.
  revert n. induction l as [|b l IH]; intros [|n]; cbn; auto.
Qed.

Lemma nth_assign {A : Type} (l : list A) (n m : nat) (a d : A) :
  nth m (assign l n a) d
  = if (m =? n)%nat && (n <? List.length l)%nat then a else nth m l d.
Proof.
  revert n m. induction l as [|b l IH]; intros n m.
  - cbn. rewrite andb_false_r. destruct n; reflexivity.
  - destruct n as [|n], m as [|m]; cbn [assign nth List.length]; try reflexivity.
    rewrite IH. reflexivity.
Qed.



Section Image.
Variable edge_image : Image.




(** *** The pixels of the image *)







(** *** The loop over the four directions *)




(** *** One flood fill *)


Section Flood.
Variables (visited0 : Visited) (seed : Pixel).





End Flood.

(** *** The two outer loops *)





End Image.





End CannyTestFacts.

Module CannyTestExamples.
Import CannyTest.
Local Open Scope Z_scope.


(** The run of the code on the sample: the pixel below the seed is
    reached from it, the other two pixels start contours of their own. *)
Lemma three_blobs_run :
  trace_contours three_blobs = Some [[(0, 0); (1, 0)]; [(0, 2)]; [(2, 2)]].
Proof. vm_compute. reflexivity. Qed.



End CannyTestExamples.

(** ** Sample runs of speed.cpp, crop_canny.cpp and minrectangle-CUDA.cpp *)

Module FurtherExamples.
Import Samples MoreSamples.

Lemma largest_of_pixel_and_square :
  let m := fst (Speed.process_image disk (fun _ _ => [pixel; square])
                  (fun _ => leftover) "a.tiff" []) in
  In (Speed.contour m) [pixel; square]
  /\ Speed.area_original m = contourArea (Speed.contour m).
Proof.
  destruct (speed_reports_largest_found_contour disk (fun _ _ => [pixel; square])
              (fun _ => leftover) [] "a.tiff" pixel [square] eq_refl eq_refl)
    as (Hin & _ & Harea & _).
  split; [exact Hin | exact Harea].
Defined.

Lemma inner_pixel_is_compared :
  exists c,
    CropCanny.is_contour_complete c (CropCanny.Mat_size Edp.plus5) = true
    /\ Speed.contour (CropCanny.process_image (fun _ _ _ => [inner_pixel])
                        leftover Edp.plus5 [] true) = c.
Proof.
  destruct (comparison_needs_one_complete_contour_each
              (fun _ => Edp.plus5) (fun _ _ _ => [inner_pixel]) (fun _ => leftover)
              "a.tiff" [] _ _ eq_refl)
    as (_ & (c & _ & Hc & Ec) & _).
  exists c. split; [exact Hc | exact Ec].
Defined.

Lemma inner_pixel_is_complete :
  CropCanny.is_contour_complete inner_pixel (CropCanny.Mat_size Edp.plus5) = true.
Proof.
  apply (proj1 (contour_complete_iff_strictly_inside inner_pixel
                  (CropCanny.Mat_size Edp.plus5)
                  ltac:(cbn; lia) ltac:(cbn; lia))).
  repeat constructor; cbn; lia.
Defined.

Lemma box_padded :
  MinRect.inside box 100 100
  /\ MinRect.inside (MinRect.pad_bounding_box box 100 100) 100 100
  /\ MinRect.covers (MinRect.pad_bounding_box box 100 100) box.
Proof.
  assert (Hin : MinRect.inside box 100 100) by (unfold MinRect.inside; cbn; lia).
  destruct (padded_box_stays_inside_image box 100 100 Hin ltac:(lia) ltac:(lia))
    as (H1 & H2 & _).
  split; [exact Hin|]. split; [exact H1 | exact H2].
Defined.

End FurtherExamples.

(** ** speed_test.cpp: the parallel run against the sequential one *)

Section SpeedTestFacts.
Context `{Imaging}.
Variable imread : string -> Mat.
Variable findContours : Mat -> Mat -> list Contour.
Import SpeedTest.

(** [process_image] of speed_test.cpp selects the largest contour itself
    and measures it with the same guarded formulas as speed.cpp: the two
    programs return the same record for every path, whatever the storage
    of speed.cpp's [results] held. *)
Theorem speed_test_agrees_with_speed :
  forall (indeterminate : string -> Speed.ContourMetrics)
         (img_path : string) (background : Mat),
    process_image imread findContours img_path background
    = fst (Speed.process_image imread findContours indeterminate img_path background).
Proof.
  intros indeterminate img_path background.
  unfold process_image, Speed.process_image.
  destruct (Mat_empty (imread img_path)); [reflexivity|].
  destruct (Std.max_element area_less _) as [max_contour|]; reflexivity.
Qed.

Lemma sequential_appends (background : Mat) (img_paths : list string)
      (results : list ContourMetrics) :
  fold_left (fun results img_path =>
               results ++ [process_image imread findContours img_path background])
            img_paths results
  = results ++ map (fun img_path => process_image imread findContours img_path background)
                   img_paths.
Proof.
  revert results. induction img_paths as [|p l IH]; intros results; cbn [fold_left map].
  - now rewrite app_nil_r.
  - rewrite IH, <- app_assoc. reflexivity.
Qed.

Lemma assign_each {A : Type} (g : Z -> A) (d : A) (l : list Z) :
  forall results : list A,
    (forall i, In i l -> (0 <= i < Z.of_nat (List.length results))%Z) ->
    let final := fold_left (fun results i => CannyTest.assign results (Z.to_nat i) (g i))
                           l results in
    List.length final = List.length results
    /\ forall k : nat,
         nth k final d
         = if existsb (fun i => (i =? Z.of_nat k)%Z) l then g (Z.of_nat k)
           else nth k results d.
Proof.
  induction l as [|i l IH]; intros results Hl; cbn zeta.
  - split; reflexivity.
  - cbn [fold_left existsb].
    assert (Hi : (0 <= i < Z.of_nat (List.length results))%Z) by (apply Hl; left; reflexivity).
    destruct (IH (CannyTest.assign results (Z.to_nat i) (g i))) as [Hlen Hnth].
    { intros j Hj. rewrite length_assign. apply Hl. right; exact Hj. }
    cbv zeta in Hlen, Hnth. rewrite length_assign in Hlen.
    split; [exact Hlen|]. intros k. rewrite Hnth, nth_assign.
    destruct (existsb _ l); [now rewrite orb_true_r|]. rewrite orb_false_r.
    destruct (Z.eqb_spec i (Z.of_nat k)) as [->|Ne].
    + rewrite Nat2Z.id, Nat.eqb_refl.
      replace (k <? List.length results)%nat with true
        by (symmetry; apply Nat.ltb_lt; lia).
      reflexivity.
    + replace (k =? Z.to_nat i)%nat with false
        by (symmetry; apply Nat.eqb_neq; lia).
      reflexivity.
Qed.

Lemma body_nth (img_paths : list string) (background : Mat)
      (results : list ContourMetrics) (range : Range) (d : ContourMetrics) :
  (0 <= fst range)%Z -> (snd range <= Z.of_nat (List.length results))%Z ->
  let final := body imread findContours img_paths background results range in
  List.length final = List.length results
  /\ forall k : nat,
       nth k final d
       = if ((fst range <=? Z.of_nat k) && (Z.of_nat k <? snd range))%Z
         then process_image imread findContours (nth k img_paths ""%string) background
         else nth k results d.
Proof.
  intros Hstart Hend final. subst final. unfold body.
  destruct (assign_each
              (fun i => process_image imread findContours
                          (nth (Z.to_nat i) img_paths ""%string) background)
              d (Edp.range (fst range) (snd range - 1)) results) as [Hlen Hnth].
  { intros i Hi. apply range_In in Hi. lia. }
  cbv zeta in Hlen, Hnth. split; [exact Hlen|].
  intros k. rewrite Hnth, Nat2Z.id.
  match goal with |- (if ?a then _ else _) = (if ?b then _ else _) =>
    replace a with b; [reflexivity|] end.
  apply eq_true_iff_eq. rewrite existsb_exists, andb_true_iff, Z.leb_le, Z.ltb_lt.
  split.
  - intros Hk. exists (Z.of_nat k). split; [apply range_In; lia | apply Z.eqb_refl].
  - intros (i & Hi & E). apply Z.eqb_eq in E. subst i. apply range_In in Hi. lia.
Qed.

Lemma schedule_nth (img_paths : list string) (background : Mat) (d : ContourMetrics)
      (schedule : list Range) :
  forall results : list ContourMetrics,
    Forall (fun range : Range =>
              (0 <= fst range)%Z /\ (snd range <= Z.of_nat (List.length results))%Z)
           schedule ->
    let final := fold_left (body imread findContours img_paths background)
                           schedule results in
    List.length final = List.length results
    /\ forall k : nat,
         nth k final d
         = if existsb (fun range : Range =>
                         ((fst range <=? Z.of_nat k) && (Z.of_nat k <? snd range))%Z)
                      schedule
           then process_image imread findContours (nth k img_paths ""%string) background
           else nth k results d.
Proof.
  induction schedule as [|range schedule IH]; intros results Hin; cbn zeta.
  - split; reflexivity.
  - inversion Hin as [|? ? [Hs He] Hin']; subst. cbn [fold_left existsb].
    destruct (body_nth img_paths background results range d Hs He) as [Hlen Hnth].
    cbv zeta in Hlen, Hnth.
    destruct (IH (body imread findContours img_paths background results range))
      as [Hlen' Hnth'].
    { rewrite Hlen. exact Hin'. }
    cbv zeta in Hlen', Hnth'. split; [congruence|].
    intros k. rewrite Hnth', Hnth.
    destruct (existsb _ schedule); [now rewrite orb_true_r|].
    rewrite orb_false_r. reflexivity.
Qed.

(** Whatever ranges [parallel_for_] splits [Range(0, img_paths.size())]
    into and in whatever order their writes land, as long as the ranges
    stay inside it and leave out no index, [process_images_parallel]
    returns the vector [process_images_sequential] returns: the record of
    the i-th path at index i. *)
Theorem parallel_run_equals_sequential_run :
  forall (schedule : list Range) (img_paths : list string) (background : Mat),
    splits schedule (Z.of_nat (List.length img_paths)) ->
    process_images_parallel imread findContours schedule img_paths background
    = process_images_sequential imread findContours img_paths background
    /\ process_images_sequential imread findContours img_paths background
       = map (fun img_path => process_image imread findContours img_path background)
             img_paths.
Proof.
  intros schedule img_paths background [Hin Hcover].
  assert (Eseq : process_images_sequential imread findContours img_paths background
                 = map (fun img_path =>
                          process_image imread findContours img_path background)
                       img_paths).
  { unfold process_images_sequential. rewrite sequential_appends. reflexivity. }
  split; [|exact Eseq]. rewrite Eseq. unfold process_images_parallel.
  set (init := repeat Speed.ContourMetrics_value_init (List.length img_paths)).
  set (d := process_image imread findContours ""%string background).
  destruct (schedule_nth img_paths background d schedule init) as [Hlen Hnth].
  { unfold init. rewrite repeat_length. exact Hin. }
  cbv zeta in Hlen, Hnth. subst init. rewrite repeat_length in Hlen.
  apply (nth_ext _ _ d d).
  - rewrite length_map. exact Hlen.
  - intros k Hk. rewrite Hlen in Hk. rewrite Hnth.
    replace (existsb _ schedule) with true.
    + unfold d.
      exact (eq_sym (map_nth (fun img_path =>
                                process_image imread findContours img_path background)
                             img_paths ""%string k)).
    + symmetry. apply existsb_exists.
      destruct (Hcover (Z.of_nat k)) as (range & Hr & Hk'); [lia|].
      exists range. split; [exact Hr|].
      rewrite andb_true_iff, Z.leb_le, Z.ltb_lt. exact Hk'.
Qed.

End SpeedTestFacts.

Module SpeedTestExamples.
Import Samples SpeedTest.

(** Three paths handled as the ranges [2, 3) and [0, 2), the later range
    first. *)
Lemma later_range_first :
  splits [(2, 3); (0, 2)]%Z 3.
Proof.
  split; [repeat constructor; cbn; lia|].
  intros i Hi. assert (E : (i = 0 \/ i = 1 \/ i = 2)%Z) by lia.
  destruct E as [-> | [-> | ->]];
    [exists (0, 2)%Z | exists (0, 2)%Z | exists (2, 3)%Z];
    (split; [cbn; tauto | cbn; lia]).
Qed.

Lemma three_paths_in_two_ranges :
  process_images_parallel disk (fun _ _ => [square]) [(2, 3); (0, 2)]%Z
    ["a.tiff"; "bad.tiff"; "b.tiff"]%string []
  = process_images_sequential disk (fun _ _ => [square])
      ["a.tiff"; "bad.tiff"; "b.tiff"]%string [].
Proof.
  exact (proj1 (parallel_run_equals_sequential_run disk (fun _ _ => [square])
                  [(2, 3); (0, 2)]%Z ["a.tiff"; "bad.tiff"; "b.tiff"]%string []
                  later_range_first)).
Defined.

End SpeedTestExamples.

(** ** The two circularity formulas *)

Section CircularityAcrossVariants.
Context `{Imaging}.





End CircularityAcrossVariants.

Module CircularityExamples.
Import Samples ReferenceFacts.


End CircularityExamples.

(** ** original-thread.cpp: a frame without a contour in the totals *)

Section ThreadUnmeasured.
Context `{Imaging}.
Import OriginalThread.

Lemma recorded_timed (frames : list Frame) :
  Forall timed_frame frames ->
  map ThreadExpected.recorded frames = map elapsed frames
  /\ filter ThreadExpected.has_contour frames = frames.
Proof.
  induction 1 as [|f frames [Hf _] _ [IH1 IH2]]; [split; reflexivity|].
  cbn [map filter]. unfold ThreadExpected.recorded at 1, ThreadExpected.has_contour at 1.
  destruct (found f); [contradiction|]. rewrite IH1, IH2. split; reflexivity.
Qed.

Lemma worker_turns_from (frames : list Frame) :
  forall st : Totals,
    numbersum st = number st ->
    let st' := fold_left worker_turn frames st in
    totaltime_c st' = totaltime_c st + sum (map ThreadExpected.recorded frames)
    /\ number st'
       = number st + INR (List.length (filter ThreadExpected.has_contour frames))
    /\ numbersum st' = number st'
    /\ (forall b, max_processing_time st < b ->
          (forall f, In f frames -> ThreadExpected.recorded f < b) ->
          max_processing_time st' < b)
    /\ ((forall f, In f frames -> ThreadExpected.recorded f <= max_processing_time st) ->
        max_processing_time st' = max_processing_time st
        /\ max_processing_time_image st' = max_processing_time_image st).
Proof.
  induction frames as [|f frames IH]; intros st Hn; cbv zeta.
  - cbn. repeat split; auto; lra.
  - cbn [fold_left map filter].
    pose proof (worker_turn_any st f) as E1. cbv zeta in E1.
    set (st1 := worker_turn st f) in *.
    destruct (IH st1) as (Et & En & Es & Hlt & Hkeep); [rewrite E1; reflexivity|].
    cbv zeta in Et, En, Es, Hlt, Hkeep.
    assert (T1 : totaltime_c st1 = totaltime_c st + ThreadExpected.recorded f)
      by (rewrite E1; reflexivity).
    assert (N1 : number st1
                 = if ThreadExpected.has_contour f then numbersum st + 1 else number st)
      by (rewrite E1; reflexivity).
    assert (M1 : max_processing_time st1
                 = if double_lt (max_processing_time st) (ThreadExpected.recorded f)
                   then ThreadExpected.recorded f else max_processing_time st)
      by (rewrite E1; reflexivity).
    assert (I1 : max_processing_time_image st1
                 = if double_lt (max_processing_time st) (ThreadExpected.recorded f)
                   then filename f else max_processing_time_image st)
      by (rewrite E1; reflexivity).
    split.
    { rewrite Et, T1.
      change (sum (ThreadExpected.recorded f :: map ThreadExpected.recorded frames))
        with (ThreadExpected.recorded f + sum (map ThreadExpected.recorded frames)).
      lra. }
    split.
    { rewrite En, N1. destruct (ThreadExpected.has_contour f); cbn [List.length].
      - rewrite S_INR. lra.
      - lra. }
    split; [exact Es|]. split.
    + intros b Hb Hall. apply Hlt.
      * rewrite M1. destruct (double_lt _ _); [apply Hall; left; reflexivity | exact Hb].
      * intros g Hg. apply Hall. right; exact Hg.
    + intros Hall.
      assert (E : double_lt (max_processing_time st) (ThreadExpected.recorded f) = false).
      { apply double_lt_false. apply Hall. left; reflexivity. }
      rewrite E in M1, I1. destruct Hkeep as [K1 K2].
      { intros g Hg. rewrite M1. apply Hall. right; exact Hg. }
      rewrite K1, K2, M1, I1. split; reflexivity.
Qed.

(** C8.  Against the rule that the reported mean is the sum of the
    recorded times over their number: in original-thread.cpp a frame in
    which no contour is found records no time and is not counted, yet the
    worker adds the uninitialised [processtime] of its turn to the sum.
    With one such frame anywhere among frames whose time is recorded, the
    reported mean is the sum of the recorded times plus that indeterminate
    value, over the number of recorded times, so it is not their mean
    unless the value happens to be 0; and when the value exceeds every
    recorded time, it is reported as the maximum, under the name of the
    frame that produced no time. *)
Theorem unmeasured_frame_enters_the_thread_mean :
  forall (before after : list Frame) (g : Frame),
    Forall timed_frame before -> Forall timed_frame after ->
    found g = [] ->
    let measured := before ++ after in
    let reported := thread_main (before ++ g :: after) in
    fst (fst reported)
    = (sum (map elapsed measured) + indeterminate g) / INR (List.length measured)
    /\ (measured <> [] -> indeterminate g <> 0 ->
        fst (fst reported) <> sum (map elapsed measured) / INR (List.length measured))
    /\ (0 < indeterminate g ->
        (forall f, In f measured -> elapsed f < indeterminate g) ->
        snd (fst reported) = indeterminate g /\ snd reported = filename g).
Proof.
  intros before after g Hb Ha Hg measured reported.
  destruct (recorded_timed before Hb) as [Rb Fb].
  destruct (recorded_timed after Ha) as [Ra Fa].
  assert (Rg : ThreadExpected.recorded g = indeterminate g)
    by (unfold ThreadExpected.recorded; rewrite Hg; reflexivity).
  assert (Cg : ThreadExpected.has_contour g = false)
    by (unfold ThreadExpected.has_contour; rewrite Hg; reflexivity).
  destruct (worker_turns_from before Totals_init eq_refl) as (Et1 & En1 & Es1 & Hlt1 & _).
  cbv zeta in Et1, En1, Es1, Hlt1. rewrite Rb, Fb in *.
  set (st1 := fold_left worker_turn before Totals_init) in *.
  set (st2 := worker_turn st1 g).
  assert (E2 : st2 = {| totaltime_c := totaltime_c st1 + indeterminate g;
                        max_processing_time :=
                          if double_lt (max_processing_time st1) (indeterminate g)
                          then indeterminate g else max_processing_time st1;
                        max_processing_time_image :=
                          if double_lt (max_processing_time st1) (indeterminate g)
                          then filename g else max_processing_time_image st1;
                        numbersum := number st1; number := number st1 |}).
  { subst st2. rewrite worker_turn_any, Rg, Cg. reflexivity. }
  destruct (worker_turns_from after st2) as (Et3 & En3 & _ & _ & Hkeep3).
  { rewrite E2. reflexivity. }
  cbv zeta in Et3, En3, Hkeep3. rewrite Ra, Fa in *.
  assert (Efold : fold_left worker_turn (before ++ g :: after) Totals_init
                  = fold_left worker_turn after st2)
    by (rewrite fold_left_app; reflexivity).
  set (st3 := fold_left worker_turn after st2) in *.
  assert (Esum : totaltime_c st3 = sum (map elapsed measured) + indeterminate g).
  { rewrite Et3, E2. cbn [totaltime_c]. rewrite Et1. subst measured.
    rewrite map_app, sum_app. cbn [Totals_init totaltime_c]. lra. }
  assert (Enum : number st3 = INR (List.length measured)).
  { rewrite En3, E2. cbn [number]. rewrite En1. subst measured.
    rewrite length_app, plus_INR. cbn [Totals_init number]. lra. }
  assert (Emean : fst (fst reported)
                  = (sum (map elapsed measured) + indeterminate g)
                    / INR (List.length measured)).
  { subst reported. unfold thread_main. rewrite Efold. cbn [fst].
    rewrite Esum, Enum. reflexivity. }
  split; [exact Emean|]. split.
  - intros Hne Hind. rewrite Emean.
    assert (Hpos : 0 < INR (List.length measured)).
    { apply lt_0_INR. destruct measured; [contradiction | cbn; lia]. }
    intros Eq. apply Hind.
    apply (Rmult_eq_compat_r (INR (List.length measured))) in Eq.
    unfold Rdiv in Eq. rewrite !Rmult_assoc, Rinv_l in Eq by lra. lra.
  - intros Hpos Hall. subst reported. unfold thread_main. rewrite Efold. cbn [fst snd].
    assert (Hmax1 : max_processing_time st1 < indeterminate g).
    { apply Hlt1; [exact Hpos|]. intros f Hf.
      assert (Ef : ThreadExpected.recorded f = elapsed f).
      { rewrite Forall_forall in Hb. destruct (Hb f Hf) as [Hc _].
        unfold ThreadExpected.recorded. destruct (found f); [contradiction | reflexivity]. }
      rewrite Ef. apply Hall. apply in_or_app. left; exact Hf. }
    apply double_lt_true in Hmax1. rewrite Hmax1 in E2.
    destruct Hkeep3 as [K1 K2].
    { intros f Hf. rewrite E2. cbn [max_processing_time].
      assert (Ef : ThreadExpected.recorded f = elapsed f).
      { rewrite Forall_forall in Ha. destruct (Ha f Hf) as [Hc _].
        unfold ThreadExpected.recorded. destruct (found f); [contradiction | reflexivity]. }
      rewrite Ef. left. apply Hall. apply in_or_app. right; exact Hf. }
    rewrite K1, K2, E2. split; reflexivity.
Qed.

End ThreadUnmeasured.

Module ThreadUnmeasuredExamples.
Import Samples MoreSamples OriginalThread.

(** The 30 and the 10 microsecond frame, then a frame without a contour
    whose [processtime] happened to hold 10: the recorded times are 30
    and 10, and the reported mean is 25. *)
Lemma mean_of_two_frames_is_25 :
  fst (fst (thread_main [frame30; frame10; unmeasured])) = 25
  /\ sum (map elapsed [frame30; frame10]) / INR (List.length [frame30; frame10]) = 20.
Proof.
  assert (Hb : Forall timed_frame [frame30; frame10])
    by (repeat constructor; simpl; try discriminate; lra).
  destruct (unmeasured_frame_enters_the_thread_mean [frame30; frame10] [] unmeasured
              Hb (Forall_nil _) eq_refl) as (Emean & _).
  cbv zeta in Emean. cbn [app] in Emean. rewrite Emean. simpl. split; lra.
Defined.

End ThreadUnmeasuredExamples.

(** ** original-thread.cpp: what the lock covers *)

Section ThreadLock.
Context `{Imaging}.
Import OriginalThread ThreadSteps.









End ThreadLock.

Module ThreadLockExamples.
Import Samples OriginalThread ThreadSteps.


End ThreadLockExamples.
